(** * neuhu.com: the dashboard page, the response envelope, the account
    privacy field and the notification delivery engine.

    The development has these parts.
    - [Dashboard] embeds [src/app/dashboard/page.tsx]: the two
      [Array.prototype.slice] calls that split the posts list and the
      [handleLogout] handler with its effects on [localStorage], the router,
      the toasts and the timer queue.
    - [Response] embeds [backend/core/utils/response.py] (read from its
      compiled module): the [ErrorCode] catalog, [ERROR_MESSAGES],
      [api_response] and [error_response].  [Query] is what a synchronous
      query of the core makes of them; the queries are not part of the
      sources at hand.
    - [Migration] embeds the [account_privacy] column of
      [backend/users/migrations/0001_initial.py].
    - [Compose] embeds the Redis and backend services of
      [docker-compose.yml].
    - [Engine] is the real-time delivery engine.  Its code is not part of the
      sources at hand, so every definition there is modelled from the
      specification and says so. *)

From Stdlib Require Import ZArith Lia Ascii String.
From stdpp Require Import gmap strings list fin_maps functions sorting.

(* ===================================================================== *)
(** ** The dashboard page *)
(* ===================================================================== *)

Module Dashboard.

#[local] Open Scope string_scope.

(** *** [Array.prototype.slice] *)

Section Slice.
Context {A : Type}.

(** The relative index of ECMAScript: a negative index counts from the end
    and is clamped at 0, a non-negative one is clamped at the length. *)
Definition relative_index (len i : Z) : Z :=
  if (i <? 0)%Z then Z.max (len + i) 0 else Z.min i len.

(** [arr.slice(start, end)]; [end_ = None] is the call with one argument. *)
Definition slice (start : Z) (end_ : option Z) (arr : list A) : list A :=
  let len := Z.of_nat (length arr) in
  let k := relative_index len start in
  let final := match end_ with
               | None => len
               | Some e => relative_index len e
               end in
  take (Z.to_nat (Z.max (final - k) 0)) (drop (Z.to_nat k) arr).
End Slice.

(** *** The posts and their rendering *)

Record Comment := {
  comment_id : string;
  comment_user : string;
  comment_content : string;
  comment_timestamp : string;
}.

Record Post := {
  post_id : Z;
  post_type : string;
  post_title : string;
  post_excerpt : option string;
  post_duration : option string;
  post_author : string;
  post_timestamp : string;
  post_likes : Z;
  post_comments : list Comment;
}.

Definition mockPosts : list Post :=
  [ {| post_id := 1; post_type := "news";
       post_title := "The Future of AI in Business";
       post_excerpt := Some "Exploring how artificial intelligence is transforming modern business practices...";
       post_duration := None;
       post_author := "John Doe"; post_timestamp := "2h ago"; post_likes := 234;
       post_comments :=
         [ {| comment_id := "1"; comment_user := "Alice Johnson";
              comment_content := "This is fascinating!"; comment_timestamp := "1h ago" |};
           {| comment_id := "2"; comment_user := "Bob Smith";
              comment_content := "Great insights!"; comment_timestamp := "30m ago" |} ] |};
    {| post_id := 2; post_type := "audio";
       post_title := "Market Analysis: Q1 2024";
       post_excerpt := None;
       post_duration := Some "15:30";
       post_author := "Jane Smith"; post_timestamp := "4h ago"; post_likes := 156;
       post_comments :=
         [ {| comment_id := "1"; comment_user := "Mike Wilson";
              comment_content := "Very informative!"; comment_timestamp := "2h ago" |} ] |} ].

(** [<PostCard key={post.id} post={post} />] *)
Record Element := { key : Z; props_post : Post }.

Definition PostCard (post : Post) : Element :=
  {| key := post_id post; props_post := post |}.

(** [{mockPosts.slice(0, 2).map((post) => <PostCard .../>)}] *)
Definition latestForYou (posts : list Post) : list Element :=
  PostCard <$> slice 0 (Some 2%Z) posts.

(** [{mockPosts.slice(2).map((post) => <PostCard .../>)}] *)
Definition trendingPosts (posts : list Post) : list Element :=
  PostCard <$> slice 2 None posts.

(** *** [handleLogout] *)

Inductive Toast :=
  | ToastSuccess (msg : string)
  | ToastError (msg : string).

(** What a timer callback does; the page has one callback only. *)
Inductive Callback :=
  | RouterPush (path : string).

Record Browser := {
  localStorage : gmap string string;
  route : string;
  toasts : list Toast;
  console : list string;
  now : nat;                          (* milliseconds *)
  timers : list (nat * Callback);     (* due time, callback *)
}.

(** The value thrown by [await authApi.logout()], when it throws. *)
Inductive Thrown :=
  | ApiError (userMessage : string)
  | OtherError.

Inductive LogoutResult :=
  | Resolved
  | Rejected (error : Thrown).

Definition localStorage_clear (b : Browser) : Browser :=
  {| localStorage := ∅; route := route b; toasts := toasts b;
     console := console b; now := now b; timers := timers b |}.

Definition toast (t : Toast) (b : Browser) : Browser :=
  {| localStorage := localStorage b; route := route b; toasts := toasts b ++ [t];
     console := console b; now := now b; timers := timers b |}.

Definition console_error (msg : string) (b : Browser) : Browser :=
  {| localStorage := localStorage b; route := route b; toasts := toasts b;
     console := console b ++ [msg]; now := now b; timers := timers b |}.

Definition router_push (path : string) (b : Browser) : Browser :=
  {| localStorage := localStorage b; route := path; toasts := toasts b;
     console := console b; now := now b; timers := timers b |}.

Definition setTimeout (cb : Callback) (delay : nat) (b : Browser) : Browser :=
  {| localStorage := localStorage b; route := route b; toasts := toasts b;
     console := console b; now := now b;
     timers := timers b ++ [(now b + delay, cb)] |}.

Definition handleLogout (r : LogoutResult) (b : Browser) : Browser :=
  match r with
  | Resolved =>
      router_push "/" (toast (ToastSuccess "Logged out successfully")
        (localStorage_clear b))
  | Rejected error =>
      let b1 := console_error "Logout error:" b in
      let b2 := localStorage_clear b1 in
      let b3 := match error with
                | ApiError userMessage => toast (ToastError userMessage) b2
                | OtherError =>
                    toast (ToastError "Error during logout, but you have been logged out locally") b2
                end in
      setTimeout (RouterPush "/") 1500 b3
  end.

Definition run_callback (cb : Callback) (b : Browser) : Browser :=
  match cb with
  | RouterPush path => router_push path b
  end.

(** Timers run in the order of their due times. *)
Definition due_before (x y : nat * Callback) : Prop := x.1 <= y.1.

#[global] Instance due_before_dec x y : Decision (due_before x y).
Proof. unfold due_before. apply _. Defined.

Definition fire (due : list (nat * Callback)) (b : Browser) : Browser :=
  foldl (fun acc t => run_callback t.2 acc) b (merge_sort due_before due).

(** The event loop after [dt] more milliseconds: the timers that are due
    run, the others stay queued. *)
Definition advance (dt : nat) (b : Browser) : Browser :=
  let t := now b + dt in
  let due := filter (fun x => x.1 <= t) (timers b) in
  let rest := filter (fun x => ¬ x.1 <= t) (timers b) in
  fire due
    {| localStorage := localStorage b; route := route b; toasts := toasts b;
       console := console b; now := t; timers := rest |}.

(** A page that has just been loaded: nothing queued yet. *)
Definition page (storage : gmap string string) (path : string) : Browser :=
  {| localStorage := storage; route := path; toasts := []; console := [];
     now := 0; timers := [] |}.

End Dashboard.

(* ===================================================================== *)
(** ** The response envelope ([core/utils/response.py]) *)
(* ===================================================================== *)

Module Response.

#[local] Open Scope string_scope.

(** The values a response body holds ([typing.Any] in the source). *)
#[warnings="-register-all"]
Inductive PyValue :=
  | PyNone
  | PyBool (b : bool)
  | PyInt (z : Z)
  | PyStr (s : string)
  | PyDict (items : list (string * PyValue)).

(** [class ErrorCode]: a plain class of string constants. *)
Module ErrorCode.
(* AUTH_ *)
Definition INVALID_CREDENTIALS : string := "AUTH_001".
Definition EMAIL_NOT_VERIFIED : string := "AUTH_002".
Definition EMAIL_ALREADY_EXISTS : string := "AUTH_003".
Definition INVALID_TOKEN : string := "AUTH_004".
(* USER_ *)
Definition USER_NOT_FOUND : string := "USER_001".
Definition USERNAME_TAKEN : string := "USER_002".
Definition INVALID_EMAIL : string := "USER_003".
(* VAL_ *)
Definition INVALID_PASSWORD : string := "VAL_001".
Definition REQUIRED_FIELD : string := "VAL_002".
Definition INVALID_FORMAT : string := "VAL_003".
(* PROF_ *)
Definition INVALID_IMAGE : string := "PROF_001".
Definition FILE_TOO_LARGE : string := "PROF_002".
End ErrorCode.

(** The attributes of [ErrorCode], in the order of the class body. *)
Definition catalog : list string :=
  [ ErrorCode.INVALID_CREDENTIALS; ErrorCode.EMAIL_NOT_VERIFIED;
    ErrorCode.EMAIL_ALREADY_EXISTS; ErrorCode.INVALID_TOKEN;
    ErrorCode.USER_NOT_FOUND; ErrorCode.USERNAME_TAKEN; ErrorCode.INVALID_EMAIL;
    ErrorCode.INVALID_PASSWORD; ErrorCode.REQUIRED_FIELD; ErrorCode.INVALID_FORMAT;
    ErrorCode.INVALID_IMAGE; ErrorCode.FILE_TOO_LARGE ].

(** [ERROR_MESSAGES = { ErrorCode.X: '...', ... }] *)
Definition ERROR_MESSAGES : gmap string string :=
  list_to_map
    [ (ErrorCode.INVALID_CREDENTIALS, "Invalid email or password");
      (ErrorCode.EMAIL_NOT_VERIFIED, "Please verify your email before proceeding");
      (ErrorCode.EMAIL_ALREADY_EXISTS, "An account with this email already exists");
      (ErrorCode.INVALID_TOKEN, "Invalid or expired token");
      (ErrorCode.USER_NOT_FOUND, "User not found");
      (ErrorCode.USERNAME_TAKEN, "This username is already taken");
      (ErrorCode.INVALID_EMAIL, "Please enter a valid email address");
      (ErrorCode.INVALID_PASSWORD,
        "Password must be at least 8 characters and contain letters and numbers");
      (ErrorCode.REQUIRED_FIELD, "This field is required");
      (ErrorCode.INVALID_FORMAT, "Invalid format");
      (ErrorCode.INVALID_IMAGE, "Invalid image format. Please upload JPG, PNG or WebP");
      (ErrorCode.FILE_TOO_LARGE, "File size should not exceed 5MB") ].

(** The concern a code belongs to is the part of the code before the
    underscore: [AUTH], [USER], [VAL], [PROF]. *)
Fixpoint prefix_of_code (code : string) : string :=
  match code with
  | EmptyString => EmptyString
  | String c rest =>
      if Ascii.eqb c "_"%char then EmptyString else String c (prefix_of_code rest)
  end.

(** [rest_framework.status] *)
Definition HTTP_200_OK : Z := 200.
Definition HTTP_400_BAD_REQUEST : Z := 400.

(** [rest_framework.response.Response(data, status=...)] *)
Record Response := {
  data : list (string * PyValue);
  status_code : Z;
}.

(** [def api_response(message='', data=None, success=True,
                      status_code=status.HTTP_200_OK)] *)
Definition api_response (message : string) (data : PyValue) (success : bool)
    (status_code : Z) : Response :=
  let response_data :=
    [ ("success", PyBool success); ("message", PyStr message); ("data", data) ] in
  {| data := response_data; status_code := status_code |}.

(** The call with every argument left at its default. *)
Definition api_response_default : Response :=
  api_response EmptyString PyNone true HTTP_200_OK.

(** [def error_response(message, error_code,
                        status_code=status.HTTP_400_BAD_REQUEST, errors=None)] *)
Definition error_response (message : string) (error_code : string)
    (status_code : Z) (errors : PyValue) : Response :=
  let response_data :=
    [ ("success", PyBool false); ("message", PyStr message);
      ("error_code", PyStr error_code); ("errors", errors) ] in
  {| data := response_data; status_code := status_code |}.

(** The keys of a response body and the value under a key. *)
Definition keys (r : Response) : list string := (data r).*1.

Definition field (k : string) (r : Response) : option PyValue :=
  (list_to_map (data r) : gmap string PyValue) !! k.

Definition is_bool (v : PyValue) : bool :=
  match v with PyBool _ => true | _ => false end.

Definition is_str (v : PyValue) : bool :=
  match v with PyStr _ => true | _ => false end.

End Response.

(* ===================================================================== *)
(** ** The synchronous queries of the core *)
(* ===================================================================== *)

Module Query.
Import Response.

#[local] Open Scope string_scope.

(** Modelled from the spec: the outcome of a synchronous query of the core
    (spec 6, "fetch pending notifications" for one) before it is put in the
    envelope: what was found, or a failure named by an error code, with its
    details. *)
Inductive Outcome :=
  | Found (message : string) (payload : PyValue)
  | Failed (error_code : string) (errors : PyValue).

(** Modelled from the spec: the answer of a synchronous query, built with
    the helpers of [response.py]: [api_response(message, payload)] for what
    was found, [error_response(ERROR_MESSAGES[error_code], error_code,
    errors=errors)] for a failure.  The subscript raises [KeyError] for a
    code that has no message, and the query gives no answer then. *)
Definition answer (o : Outcome) : option Response :=
  match o with
  | Found message payload => Some (api_response message payload true HTTP_200_OK)
  | Failed error_code errors =>
      match ERROR_MESSAGES !! error_code with
      | Some message =>
          Some (error_response message error_code HTTP_400_BAD_REQUEST errors)
      | None => None
      end
  end.

(** The envelope in the words of the specification:
    [{success: bool, message: string, data | error_code, errors?}], the
    error code being one of the catalog. *)
Definition uniform_envelope (r : Response) : Prop :=
  (∃ success, field "success" r = Some (PyBool success)) ∧
  (∃ message, field "message" r = Some (PyStr message)) ∧
  (keys r = ["success"; "message"; "data"] ∨
   ((keys r = ["success"; "message"; "error_code"; "errors"] ∨
     keys r = ["success"; "message"; "error_code"]) ∧
    ∃ code, field "error_code" r = Some (PyStr code) ∧ code ∈ catalog)).

End Query.

(* ===================================================================== *)
(** ** The [account_privacy] column ([users/migrations/0001_initial.py]) *)
(* ===================================================================== *)

Module Migration.

#[local] Open Scope string_scope.

(** [models.CharField(choices=..., max_length=...)], the options the
    column is declared with. *)
Record CharField := {
  choices : list (string * string);   (* stored value, label *)
  max_length : nat;
  blank : bool;
}.

(** [('account_privacy', models.CharField(choices=[('PUBLIC', 'Public'),
      ('PRIVATE', 'Private')], default=..., max_length=10))] *)
Definition account_privacy : CharField :=
  {| choices := [ ("PUBLIC", "Public"); ("PRIVATE", "Private") ];
     max_length := 10;
     blank := false |}.

Inductive ValidationError :=
  | invalid_choice
  | blank_value
  | max_length_exceeded.

(** Django's [Field.validate] followed by the field's [MaxLengthValidator]:
    a non-empty value must be the stored value of one of the choices; the
    empty value is rejected unless [blank] is set. *)
Definition validate (f : CharField) (value : string) : option ValidationError :=
  if decide (value = EmptyString) then
    (if blank f then None else Some blank_value)
  else if negb (bool_decide (value ∈ (choices f).*1)) then Some invalid_choice
  else if bool_decide (max_length f < String.length value) then Some max_length_exceeded
  else None.

(** The values the column admits. *)
Definition admits (f : CharField) (value : string) : Prop :=
  validate f value = None.

End Migration.

(* ===================================================================== *)
(** ** The deployment ([docker-compose.yml]) *)
(* ===================================================================== *)

Module Compose.

#[local] Open Scope string_scope.

Record Service := {
  image : option string;
  build : option string;
  command : list string;               (* the words of the command line *)
  volumes : list string;
  environment : list (string * string);
  depends_on : list string;
}.

(** [services.redis] *)
Definition redis : Service :=
  {| image := Some "redis:alpine";
     build := None;
     command := [ "redis-server"; "--appendonly"; "yes" ];
     volumes := [ "redis_data:/data" ];
     environment := [];
     depends_on := [] |}.

(** [services.backend] *)
Definition backend : Service :=
  {| image := None;
     build := Some "./backend";
     command :=
       [ "bash"; "-c";
         "python manage.py collectstatic --noinput && daphne -b 0.0.0.0 -p 8000 core.asgi:application" ];
     volumes := [ "./backend:/app"; "static_volume:/app/static";
                  "media_volume:/app/media"; "./backend/core/utils:/app/core/utils" ];
     environment :=
       [ ("DAPHNE_HOST", "0.0.0.0"); ("DAPHNE_PORT", "8000");
         ("DAPHNE_WEBSOCKET_TIMEOUT", "300"); ("DJANGO_ENV", "development");
         ("DJANGO_SETTINGS_MODULE", "core.settings.local");
         ("SECRET_KEY", "your-secret-key-here"); ("CORS_ALLOW_ALL_ORIGINS", "True");
         ("ALLOWED_HOSTS", "localhost,127.0.0.1"); ("PYTHONPATH", "/app");
         ("PYTHONDONTWRITEBYTECODE", "1"); ("PYTHONUNBUFFERED", "1");
         ("POSTGRES_DB", "dbname"); ("POSTGRES_USER", "user");
         ("POSTGRES_PASSWORD", "password"); ("POSTGRES_HOST", "db");
         ("POSTGRES_PORT", "5432"); ("REDIS_URL", "redis://redis:6379/0");
         ("CHANNEL_LAYERS_HOST", "redis") ];
     depends_on := [ "db"; "redis" ] |}.

(** The top-level [volumes]. *)
Definition named_volumes : list string :=
  [ "postgres_data"; "redis_data"; "static_volume"; "media_volume" ].

Definition env (k : string) (svc : Service) : option string :=
  (list_to_map (environment svc) : gmap string string) !! k.

End Compose.

(* ===================================================================== *)
(** ** The delivery engine *)
(* ===================================================================== *)

Module Engine.

(** *** Data model *)

(** Modelled from the spec: the privacy mode of an Identity, read from the
    external account store (the engine's own type for it is missing). *)
Inductive Privacy := PUBLIC | PRIVATE.

(** Modelled from the spec: the closed set of event kinds. *)
Inductive Kind := POST | COMMENT | LIKE | FOLLOW.

(** Modelled from the spec: the Event record published by the CRUD layer;
    identities and ids are opaque, here natural numbers. *)
Record Event := {
  event_id : nat;
  kind : Kind;
  actor_id : nat;
  target_id : nat;
  created_at : nat;
}.

(** Modelled from the spec: the liveness of a Connection. *)
Inductive Liveness := OPEN | CLOSING | CLOSED.

(** Modelled from the spec: the typed frames the gateway sends to a client. *)
Inductive Frame :=
  | NotificationFrame (nid : nat)
  | Heartbeat.

(** Modelled from the spec: the Connection record of the Connection Gateway.
    [catching_up] holds from admission until the catch-up replay over the
    connection is done (spec 4.7: the replay comes before live fan-out is
    resumed); [outbound] is the log of the frames sent over it. *)
Record Connection := {
  owner : nat;
  established_at : nat;
  liveness : Liveness;
  catching_up : bool;
  outbound : list Frame;
}.

(** Modelled from the spec: the delivery state of a Notification. *)
Inductive DeliveryState := PENDING | DELIVERED | ACKED | EXPIRED.

(** Modelled from the spec: the Notification record.  The notification id is
    drawn from the store's counter when the record is created. *)
Record Notification := {
  notification_id : nat;
  recipient_id : nat;
  notified_event : nat;
  state : DeliveryState;
  attempt_count : nat;
  next_retry_at : nat;
}.

#[global] Instance Privacy_eq_dec : EqDecision Privacy.
Proof. solve_decision. Defined.
#[global] Instance Kind_eq_dec : EqDecision Kind.
Proof. solve_decision. Defined.
#[global] Instance Event_eq_dec : EqDecision Event.
Proof. solve_decision. Defined.
#[global] Instance Liveness_eq_dec : EqDecision Liveness.
Proof. solve_decision. Defined.
#[global] Instance DeliveryState_eq_dec : EqDecision DeliveryState.
Proof. solve_decision. Defined.
#[global] Instance Frame_eq_dec : EqDecision Frame.
Proof. solve_decision. Defined.

(** Modelled from the spec: the retry configuration (maximum attempt count,
    base and ceiling of the exponential backoff), left to configuration. *)
Record Config := {
  max_attempts : nat;
  backoff_base : nat;
  backoff_ceiling : nat;
}.

(** Modelled from the spec: the whole engine with its collaborators: the
    account store ([privacy]; [edges], the FollowEdges as (follower,
    followee) pairs; [accepted], those of them that are accepted, which
    spec 4.2 asks for when the followee is PRIVATE), the Event Bus log, the
    Outbox Store ([outbox] in append order, [next_id]), the Connection
    Gateway ([connections]), the Presence Registry ([registry]), the clock,
    and the log of the delivery attempts made. *)
Record System := {
  privacy : nat → Privacy;
  edges : gset (nat * nat);
  accepted : gset (nat * nat);
  bus : list Event;
  outbox : list Notification;
  next_id : nat;
  connections : gmap nat Connection;
  registry : gmap nat (gset nat);
  clock : nat;
  attempts : list nat;
}.

(** Modelled from the spec: the updates of one component of the system, the
    others being left as they are. *)
Definition set_privacy (f : (nat → Privacy) → (nat → Privacy)) (s : System) : System :=
  {| privacy := f (privacy s); edges := edges s; accepted := accepted s; bus := bus s;
     outbox := outbox s; next_id := next_id s; connections := connections s;
     registry := registry s; clock := clock s; attempts := attempts s |}.

Definition set_edges (f : gset (nat * nat) → gset (nat * nat)) (s : System) : System :=
  {| privacy := privacy s; edges := f (edges s); accepted := accepted s; bus := bus s;
     outbox := outbox s; next_id := next_id s; connections := connections s;
     registry := registry s; clock := clock s; attempts := attempts s |}.

Definition set_accepted (f : gset (nat * nat) → gset (nat * nat)) (s : System) : System :=
  {| privacy := privacy s; edges := edges s; accepted := f (accepted s); bus := bus s;
     outbox := outbox s; next_id := next_id s; connections := connections s;
     registry := registry s; clock := clock s; attempts := attempts s |}.

Definition set_bus (f : list Event → list Event) (s : System) : System :=
  {| privacy := privacy s; edges := edges s; accepted := accepted s; bus := f (bus s);
     outbox := outbox s; next_id := next_id s; connections := connections s;
     registry := registry s; clock := clock s; attempts := attempts s |}.

Definition set_outbox (f : list Notification → list Notification) (s : System) : System :=
  {| privacy := privacy s; edges := edges s; accepted := accepted s; bus := bus s;
     outbox := f (outbox s); next_id := next_id s; connections := connections s;
     registry := registry s; clock := clock s; attempts := attempts s |}.

Definition set_next_id (f : nat → nat) (s : System) : System :=
  {| privacy := privacy s; edges := edges s; accepted := accepted s; bus := bus s;
     outbox := outbox s; next_id := f (next_id s); connections := connections s;
     registry := registry s; clock := clock s; attempts := attempts s |}.

Definition set_connections (f : gmap nat Connection → gmap nat Connection)
    (s : System) : System :=
  {| privacy := privacy s; edges := edges s; accepted := accepted s; bus := bus s;
     outbox := outbox s; next_id := next_id s; connections := f (connections s);
     registry := registry s; clock := clock s; attempts := attempts s |}.

Definition set_registry (f : gmap nat (gset nat) → gmap nat (gset nat))
    (s : System) : System :=
  {| privacy := privacy s; edges := edges s; accepted := accepted s; bus := bus s;
     outbox := outbox s; next_id := next_id s; connections := connections s;
     registry := f (registry s); clock := clock s; attempts := attempts s |}.

Definition set_clock (f : nat → nat) (s : System) : System :=
  {| privacy := privacy s; edges := edges s; accepted := accepted s; bus := bus s;
     outbox := outbox s; next_id := next_id s; connections := connections s;
     registry := registry s; clock := f (clock s); attempts := attempts s |}.

Definition set_attempts (f : list nat → list nat) (s : System) : System :=
  {| privacy := privacy s; edges := edges s; accepted := accepted s; bus := bus s;
     outbox := outbox s; next_id := next_id s; connections := connections s;
     registry := registry s; clock := clock s; attempts := f (attempts s) |}.

(** *** Visibility Resolver *)

(** Modelled from the spec: the follow-edge store read by the resolver;
    [follows s f a] says that there is a FollowEdge from [f] to [a]. *)
Definition follows (s : System) (follower followee : nat) : Prop :=
  (follower, followee) ∈ edges s.

#[global] Instance follows_dec s follower followee : Decision (follows s follower followee).
Proof. unfold follows. apply _. Defined.

(** Modelled from the spec: [accepted_follows s f a] says that there is an
    accepted FollowEdge from [f] to [a]. *)
Definition accepted_follows (s : System) (follower followee : nat) : Prop :=
  (follower, followee) ∈ edges s ∧ (follower, followee) ∈ accepted s.

#[global] Instance accepted_follows_dec s follower followee :
  Decision (accepted_follows s follower followee).
Proof. unfold accepted_follows. apply _. Defined.

(** Modelled from the spec: the followers of an actor. *)
Definition followers (s : System) (actor : nat) : gset nat :=
  set_map fst (filter (fun e => e.2 = actor) (edges s)).

(** Modelled from the spec: [canSee(actorId, recipientId, eventKind)].
    FOLLOW events are always visible to the followee; POST, COMMENT and LIKE
    events of a PUBLIC actor are visible to the followers and to the actor,
    those of a PRIVATE actor to the identities with an accepted FollowEdge
    to the actor only. *)
Definition canSee (s : System) (actor recipient : nat) (k : Kind) : bool :=
  match k with
  | FOLLOW => true
  | POST | COMMENT | LIKE =>
      match privacy s actor with
      | PUBLIC => bool_decide (follows s recipient actor)
                  || bool_decide (recipient = actor)
      | PRIVATE => bool_decide (accepted_follows s recipient actor)
      end
  end.

(** *** Presence Registry *)

(** Modelled from the spec: [lookup(identity)], the set of connection ids
    registered for an identity. *)
Definition lookup (reg : gmap nat (gset nat)) (i : nat) : gset nat :=
  default ∅ (reg !! i).

(** Modelled from the spec: [register(identity, connectionId)]. *)
Definition register (i c : nat) (reg : gmap nat (gset nat)) : gmap nat (gset nat) :=
  <[i := {[c]} ∪ lookup reg i]> reg.

(** Modelled from the spec: [unregister(identity, connectionId)], a no-op
    for a pair that is not registered. *)
Definition unregister (i c : nat) (reg : gmap nat (gset nat)) : gmap nat (gset nat) :=
  <[i := lookup reg i ∖ {[c]}]> reg.

(** Modelled from the spec: the registry reconstructed from the live
    connections only. *)
Definition reconstruct (conns : gmap nat Connection) : gmap nat (gset nat) :=
  map_fold (fun c conn reg =>
              if decide (liveness conn = OPEN) then register (owner conn) c reg
              else reg) ∅ conns.

(** *** Event Bus *)

(** Modelled from the spec: reading an event of the log by its id. *)
Definition find_event (ev : nat) (b : list Event) : option Event :=
  List.find (fun e => Nat.eqb (event_id e) ev) b.

(** Modelled from the spec: [publish(Event)].  Event ids are unique: an
    event whose id is in the log already is not recorded again. *)
Definition publish (e : Event) (s : System) : System :=
  match find_event (event_id e) (bus s) with
  | Some _ => s
  | None => set_bus (fun b => b ++ [e]) s
  end.

(** *** Outbox Store *)

(** Modelled from the spec: the (recipient, event id) pair a Notification is
    checked for before creation. *)
Definition notification_key (n : Notification) : nat * nat :=
  (recipient_id n, notified_event n).

(** Modelled from the spec: the existence check of step 3. *)
Definition has_notification (ns : list Notification) (r ev : nat) : bool :=
  bool_decide ((r, ev) ∈ notification_key <$> ns).

(** Modelled from the spec: reading a record of the store by notification id. *)
Definition find_notification (nid : nat) (ns : list Notification) : option Notification :=
  List.find (fun n => Nat.eqb (notification_id n) nid) ns.

(** Modelled from the spec: the per-record atomic update of the store. *)
Definition update_notification (nid : nat) (f : Notification → Notification)
    (ns : list Notification) : list Notification :=
  (fun n => if decide (notification_id n = nid) then f n else n) <$> ns.

(** Modelled from the spec: the mutable part of a Notification (delivery
    state, attempt count, next-retry-at). *)
Definition with_delivery (st : DeliveryState) (a t : nat) (n : Notification) : Notification :=
  {| notification_id := notification_id n; recipient_id := recipient_id n;
     notified_event := notified_event n;
     state := st; attempt_count := a; next_retry_at := t |}.

(** Modelled from the spec: the transitions PENDING → DELIVERED → ACKED and
    PENDING/DELIVERED → EXPIRED. *)
Definition edge (a b : DeliveryState) : bool :=
  match a, b with
  | PENDING, DELIVERED | DELIVERED, ACKED
  | PENDING, EXPIRED | DELIVERED, EXPIRED => true
  | _, _ => false
  end.


(** Modelled from the spec: the conditional state write of the Outbox Store
    (spec 4.6 and 5).  The write takes effect when it is one of the
    transitions; any other write is rejected as a no-op. *)
Definition write_state (new : DeliveryState) (n : Notification) : Notification :=
  if edge (state n) new
  then with_delivery new (attempt_count n) (next_retry_at n) n
  else n.

(** Modelled from the spec: exponential backoff, base 2, capped. *)
Definition backoff (cfg : Config) (attempt : nat) : nat :=
  Nat.min (backoff_base cfg * 2 ^ attempt) (backoff_ceiling cfg).

(** Modelled from the spec: step 6 and the failure semantics, the failure of
    an attempt for a PENDING record.  The attempt count goes up by one;
    beyond the maximum attempt count the record is written EXPIRED,
    otherwise it stays PENDING with the next retry time pushed back. *)
Definition record_failure (cfg : Config) (now : nat) (n : Notification) : Notification :=
  if decide (state n = PENDING) then
    let a := attempt_count n + 1 in
    if decide (max_attempts cfg < a)
    then write_state EXPIRED (with_delivery PENDING a (next_retry_at n) n)
    else with_delivery PENDING a (now + backoff cfg a) n
  else n.

(** Modelled from the spec: after the ack timeout the pool asks for the
    unacknowledged DELIVERED record to be PENDING again (spec 4.5).  The
    request is a state write like any other and goes through the conditional
    write of the store (spec 4.6). *)
Definition ack_timeout (n : Notification) : Notification :=
  write_state PENDING n.

(** Modelled from the spec: a client ack asks for the record to be ACKED. *)
Definition acknowledge (n : Notification) : Notification :=
  write_state ACKED n.

(** Modelled from the spec: the creation time of the event a Notification is
    about, read from the log of the bus. *)
Definition created_of (s : System) (n : Notification) : nat :=
  match find_event (notified_event n) (bus s) with
  | Some e => created_at e
  | None => 0
  end.

(** Modelled from the spec: the order of the catch-up replay, by the creation
    time of the event, and by notification id among events of one time. *)
Definition replay_before (s : System) (n m : Notification) : Prop :=
  created_of s n < created_of s m ∨
  (created_of s n = created_of s m ∧ notification_id n ≤ notification_id m).

#[global] Instance replay_before_dec s n m : Decision (replay_before s n m).
Proof. unfold replay_before. apply _. Defined.

(** Modelled from the spec: the catch-up fetch, all PENDING notifications of
    an identity in creation order. *)
Definition catch_up_fetch (i : nat) (s : System) : list Notification :=
  merge_sort (replay_before s)
    (filter (fun n => recipient_id n = i ∧ state n = PENDING) (outbox s)).

(** *** Connection Gateway *)

(** Modelled from the spec: a frame sent over a connection, a change of its
    liveness, and the end of its catch-up. *)
Definition add_frame (f : Frame) (conn : Connection) : Connection :=
  {| owner := owner conn; established_at := established_at conn;
     liveness := liveness conn; catching_up := catching_up conn;
     outbound := outbound conn ++ [f] |}.

Definition with_liveness (l : Liveness) (conn : Connection) : Connection :=
  {| owner := owner conn; established_at := established_at conn;
     liveness := l; catching_up := catching_up conn; outbound := outbound conn |}.

Definition with_catching_up (b : bool) (conn : Connection) : Connection :=
  {| owner := owner conn; established_at := established_at conn;
     liveness := liveness conn; catching_up := b; outbound := outbound conn |}.

(** Modelled from the spec: sending a notification frame over the
    connections in [cs]. *)
Definition send_frames (nid : nat) (cs : list nat) (conns : gmap nat Connection)
    : gmap nat Connection :=
  foldr (fun c m => alter (add_frame (NotificationFrame nid)) c m) conns cs.

(** Modelled from the spec: a connection that takes live pushes, which one
    that is still catching up does not. *)
Definition ready (s : System) (c : nat) : bool :=
  match connections s !! c with
  | Some conn => negb (catching_up conn)
  | None => false
  end.

(** *** Delivery Worker Pool *)

(** Modelled from the spec: [canSee] for the recipient and the event of a
    Notification, as it is at the time of the call. *)
Definition visible (s : System) (n : Notification) : bool :=
  match find_event (notified_event n) (bus s) with
  | Some e => canSee s (actor_id e) (recipient_id n) (kind e)
  | None => false
  end.

(** Modelled from the spec: the connections a delivery attempt goes to: the
    connection under catch-up for a replay, and for a live push what
    [lookup] gives at the moment of delivery, the connections that are still
    catching up left aside. *)
Definition targets (s : System) (over : option nat) (n : Notification) : list nat :=
  match over with
  | Some c => [c]
  | None => filter (fun c => ready s c = true)
              (elements (lookup (registry s) (recipient_id n)))
  end.

(** Modelled from the spec: one delivery attempt for the record with id
    [nid], steps 5 and 6.  The record is read back from the store and only a
    PENDING one is attempted; [canSee] is evaluated again, and the attempt
    is suppressed when it denies; [send c nid] tells whether the gateway
    confirms the send over [c]. *)
Definition attempt (cfg : Config) (send : nat → nat → bool) (over : option nat)
    (nid : nat) (s : System) : System :=
  match find_notification nid (outbox s) with
  | Some n =>
      if decide (state n = PENDING) then
        if visible s n then
          let sent := filter (fun c => send c nid = true) (targets s over n) in
          let s1 := set_attempts (fun l => l ++ [nid]) s in
          match sent with
          | [] => set_outbox (update_notification nid (record_failure cfg (clock s))) s1
          | _ :: _ =>
              set_outbox (update_notification nid (write_state DELIVERED))
                (set_connections (send_frames nid sent) s1)
          end
        else s
      else s
  | None => s
  end.

(** Modelled from the spec: the live push of the record with id [nid]. *)
Definition push (cfg : Config) (send : nat → nat → bool) (nid : nat) (s : System) : System :=
  attempt cfg send None nid s.

(** Modelled from the spec: the replay of one record over the connection
    [c] during catch-up. *)
Definition replay_one (cfg : Config) (send : nat → nat → bool) (c : nat)
    (s : System) (nid : nat) : System :=
  attempt cfg send (Some c) nid s.

(** Modelled from the spec: step 1, the candidate recipients of an event. *)
Definition candidates (s : System) (e : Event) : list nat :=
  match kind e with
  | FOLLOW => [target_id e]
  | POST | COMMENT | LIKE => elements (followers s (actor_id e))
  end.

(** Modelled from the spec: step 4, a new PENDING record. *)
Definition create (r ev : nat) (s : System) : System :=
  let n := {| notification_id := next_id s; recipient_id := r; notified_event := ev;
              state := PENDING; attempt_count := 0; next_retry_at := clock s |} in
  set_next_id S (set_outbox (fun ns => ns ++ [n]) s).

(** Modelled from the spec: steps 2 to 6 for one candidate. *)
Definition deliver_candidate (cfg : Config) (send : nat → nat → bool) (e : Event)
    (s : System) (r : nat) : System :=
  if canSee s (actor_id e) r (kind e) then
    if has_notification (outbox s) r (event_id e) then s
    else push cfg send (next_id s) (create r (event_id e) s)
  else s.

(** Modelled from the spec: the processing of one event received from the
    bus. *)
Definition process (cfg : Config) (send : nat → nat → bool) (e : Event) (s : System) : System :=
  foldl (deliver_candidate cfg send e) s (candidates s e).

(** Modelled from the spec: the periodic retry sweep over the PENDING
    records whose retry time has come. *)
Definition retry_sweep (cfg : Config) (send : nat → nat → bool) (s : System) : System :=
  let due := filter (fun n => state n = PENDING ∧ next_retry_at n ≤ clock s) (outbox s) in
  foldl (fun acc nid => push cfg send nid acc) s (notification_id <$> due).

(** Modelled from the spec: admission of a new connection [c] of identity
    [i] (the Token Validator has accepted the claim): the connection is
    created OPEN and registered; its catch-up is still to come. *)
Definition connect (i c : nat) (s : System) : System :=
  match connections s !! c with
  | Some _ => s
  | None =>
      let conn := {| owner := i; established_at := clock s; liveness := OPEN;
                     catching_up := true; outbound := [] |} in
      set_registry (register i c) (set_connections (insert c conn) s)
  end.

(** Modelled from the spec: the catch-up of the connection [c] (spec 4.7),
    one operation of the gateway: the PENDING notifications of its owner are
    fetched and replayed over it in creation order, after which live fan-out
    to the connection is resumed. *)
Definition catch_up (cfg : Config) (send : nat → nat → bool) (c : nat) (s : System) : System :=
  match connections s !! c with
  | Some conn =>
      if decide (liveness conn = OPEN ∧ catching_up conn = true) then
        set_connections (alter (with_catching_up false) c)
          (foldl (replay_one cfg send c) s
             (notification_id <$> catch_up_fetch (owner conn) s))
      else s
  | None => s
  end.

(** Modelled from the spec: the start of a close, OPEN → CLOSING; the
    registry entry goes at once. *)
Definition begin_close (c : nat) (s : System) : System :=
  match connections s !! c with
  | Some conn =>
      if decide (liveness conn = OPEN) then
        set_registry (unregister (owner conn) c)
          (set_connections (insert c (with_liveness CLOSING conn)) s)
      else s
  | None => s
  end.

(** Modelled from the spec: a detected disconnect: unregister and mark the
    connection CLOSED. *)
Definition disconnect (c : nat) (s : System) : System :=
  match connections s !! c with
  | Some conn =>
      set_registry (unregister (owner conn) c)
        (set_connections (insert c (with_liveness CLOSED conn)) s)
  | None => s
  end.

(** Modelled from the spec: an ack frame for [nid] received over [c]. *)
Definition ack (c nid : nat) (s : System) : System :=
  match connections s !! c, find_notification nid (outbox s) with
  | Some conn, Some n =>
      if decide (liveness conn = OPEN ∧ owner conn = recipient_id n)
      then set_outbox (update_notification nid acknowledge) s
      else s
  | _, _ => s
  end.

(** Modelled from the spec: a process restart.  Notification and Outbox
    records and the bus log survive; every prior connection is gone and the
    registry is what the live connections give. *)
Definition restart (s : System) : System :=
  let conns := with_liveness CLOSED <$> connections s in
  set_registry (fun _ => reconstruct conns) (set_connections (fun _ => conns) s).

(** *** The operations of the system *)

Inductive Label :=
  | Publish (e : Event)
  | Deliver (e : Event) (send : nat → nat → bool)
  | SetPrivacy (i : nat) (p : Privacy)
  | Follow (follower followee : nat)
  | Accept (follower followee : nat)
  | Unfollow (follower followee : nat)
  | Connect (i c : nat)
  | CatchUp (c : nat) (send : nat → nat → bool)
  | BeginClose (c : nat)
  | Disconnect (c : nat)
  | Ack (c nid : nat)
  | AckTimeout (nid : nat)
  | RetrySweep (send : nat → nat → bool)
  | RetentionExpire (nid : nat)
  | StoreWrite (nid : nat) (st : DeliveryState)
  | Tick (dt : nat)
  | Restart.

(** Modelled from the spec: one operation of the engine or of its
    collaborators.  The bus delivers at least once: any published event may
    be delivered again.  [StoreWrite] is a state write asked of the store by
    any of its clients. *)
Definition step (cfg : Config) (l : Label) (s : System) : System :=
  match l with
  | Publish e => publish e s
  | Deliver e send => if decide (e ∈ bus s) then process cfg send e s else s
  | SetPrivacy i p => set_privacy (fun f => <[i := p]> f) s
  | Follow f a => set_edges (fun es => es ∪ {[(f, a)]}) s
  | Accept f a => set_accepted (fun es => es ∪ {[(f, a)]}) s
  | Unfollow f a =>
      set_accepted (fun es => es ∖ {[(f, a)]}) (set_edges (fun es => es ∖ {[(f, a)]}) s)
  | Connect i c => connect i c s
  | CatchUp c send => catch_up cfg send c s
  | BeginClose c => begin_close c s
  | Disconnect c => disconnect c s
  | Ack c nid => ack c nid s
  | AckTimeout nid => set_outbox (update_notification nid ack_timeout) s
  | RetrySweep send => retry_sweep cfg send s
  | RetentionExpire nid => set_outbox (update_notification nid (write_state EXPIRED)) s
  | StoreWrite nid st => set_outbox (update_notification nid (write_state st)) s
  | Tick dt => set_clock (fun t => t + dt) s
  | Restart => restart s
  end.

Definition run (cfg : Config) (t : list Label) (s : System) : System :=
  foldl (fun acc l => step cfg l acc) s t.

(** Modelled from the spec: the engine at start-up, over a given account
    store whose FollowEdges are all accepted. *)
Definition init (priv : nat → Privacy) (es : gset (nat * nat)) : System :=
  {| privacy := priv; edges := es; accepted := es; bus := []; outbox := [];
     next_id := 0; connections := ∅; registry := ∅; clock := 0; attempts := [] |}.

(** *** Predicates used to state and prove the properties *)

(** A record update keeps the identity of the record. *)
Definition stable (f : Notification → Notification) : Prop :=
  ∀ n, notification_id (f n) = notification_id n ∧
       recipient_id (f n) = recipient_id n ∧
       notified_event (f n) = notified_event n.

(** The ids of the store are the positions of the records, and the counter
    is the length of the store. *)
Definition well_formed (s : System) : Prop :=
  next_id s = length (outbox s) ∧
  ∀ k n, outbox s !! k = Some n → notification_id n = k.

(** Two systems that differ in the account store, the bus or the clock
    only. *)
Definition same_engine (s s' : System) : Prop :=
  outbox s' = outbox s ∧ next_id s' = next_id s ∧
  connections s' = connections s ∧ registry s' = registry s ∧
  attempts s' = attempts s.

(** Two systems with the same account store, bus and clock. *)
Definition same_world (s s' : System) : Prop :=
  privacy s' = privacy s ∧ edges s' = edges s ∧ accepted s' = accepted s ∧
  bus s' = bus s ∧ clock s' = clock s.

(** Two systems in which a delivery attempt sees the same: the same account
    store, bus and clock, the same registry, and the same connections taking
    live pushes. *)
Definition similar (s s' : System) : Prop :=
  same_world s s' ∧ registry s' = registry s ∧ ∀ c, ready s' c = ready s c.

(** The atomic moves every operation of the system is made of. *)
Inductive moves (cfg : Config) : System → System → Prop :=
  | moves_refl s : moves cfg s s
  | moves_trans s1 s2 s3 : moves cfg s1 s2 → moves cfg s2 s3 → moves cfg s1 s3
  | moves_external s s' : same_engine s s' → moves cfg s s'
  | moves_create s r ev :
      has_notification (outbox s) r ev = false →
      moves cfg s (create r ev s)
  | moves_attempt_sent s nid n cs :
      find_notification nid (outbox s) = Some n → state n = PENDING →
      moves cfg s
        (set_outbox (update_notification nid (write_state DELIVERED))
           (set_connections (send_frames nid cs)
              (set_attempts (fun l => l ++ [nid]) s)))
  | moves_attempt_failed s nid n :
      find_notification nid (outbox s) = Some n → state n = PENDING →
      moves cfg s
        (set_outbox (update_notification nid (record_failure cfg (clock s)))
           (set_attempts (fun l => l ++ [nid]) s))
  | moves_write s nid st :
      moves cfg s (set_outbox (update_notification nid (write_state st)) s)
  | moves_open s i c conn :
      connections s !! c = None → owner conn = i → liveness conn = OPEN →
      outbound conn = [] →
      moves cfg s (set_registry (register i c) (set_connections (insert c conn) s))
  | moves_close s c conn l :
      connections s !! c = Some conn → l ≠ OPEN →
      moves cfg s
        (set_registry (unregister (owner conn) c)
           (set_connections (insert c (with_liveness l conn)) s))
  | moves_caught_up s c :
      moves cfg s (set_connections (alter (with_catching_up false) c) s)
  | moves_restart s : moves cfg s (restart s).




(** The outbound log of every connection is only added to. *)
Definition logs_grow (s s' : System) : Prop :=
  ∀ c conn, connections s !! c = Some conn →
    ∃ conn', connections s' !! c = Some conn' ∧
             owner conn' = owner conn ∧
             outbound conn `prefix_of` outbound conn'.

(** The registry holds the OPEN connections of each identity and nothing
    else. *)
Definition registry_exact (s : System) : Prop :=
  ∀ i c, c ∈ lookup (registry s) i ↔
         ∃ conn, connections s !! c = Some conn ∧
                 liveness conn = OPEN ∧ owner conn = i.

(** Nothing has been sent over a connection that is still catching up, the
    connection [x] apart. *)
Definition quiet_but (x : option nat) (s : System) : Prop :=
  ∀ c conn, Some c ≠ x → connections s !! c = Some conn → catching_up conn = true →
            outbound conn = [].

Definition quiet (s : System) : Prop := quiet_but None s.

(** The ids of the events of the log are pairwise distinct, and every record
    of the store is about an event of the log. *)
Definition events_known (s : System) : Prop :=
  NoDup (event_id <$> bus s) ∧
  Forall (fun key => key.2 ∈ event_id <$> bus s) (notification_key <$> outbox s).

(** The number of delivery attempts made for the record with id [nid]. *)
Definition attempts_of (s : System) (nid : nat) : nat :=
  length (filter (fun x => x = nid) (attempts s)).

(** The bookkeeping of the attempts of one record, [a] attempts having been
    made for it: every attempt is accounted for by the attempt count, but
    the one in flight for a record that is DELIVERED or ACKED, and a record
    beyond the maximum attempt count is EXPIRED. *)
Definition accounted (cfg : Config) (a : nat) (n : Notification) : Prop :=
  a ≤ attempt_count n + 1 ∧
  (state n = PENDING → a ≤ attempt_count n) ∧
  attempt_count n ≤ max_attempts cfg + 1 ∧
  (max_attempts cfg < attempt_count n → state n = EXPIRED ∧ a ≤ attempt_count n).

Definition attempts_accounted (cfg : Config) (s : System) : Prop :=
  Forall (fun nid => nid < next_id s) (attempts s) ∧
  ∀ k n, outbox s !! k = Some n → accounted cfg (attempts_of s k) n.

(** What one delivery attempt makes of a record: nothing when the record is
    not PENDING or not visible, DELIVERED when a send is confirmed, one more
    failure otherwise. *)
Definition attempted (cfg : Config) (send : nat → nat → bool) (over : option nat)
    (s : System) (n : Notification) : Notification :=
  if decide (state n = PENDING) then
    if visible s n then
      match filter (fun c => send c (notification_id n) = true) (targets s over n) with
      | [] => record_failure cfg (clock s) n
      | _ :: _ => write_state DELIVERED n
      end
    else n
  else n.

(** The attempt for the record with id [nid] sends its frame over [c]. *)
Definition sent_over (send : nat → nat → bool) (over : option nat)
    (s : System) (c nid : nat) : Prop :=
  ∃ n, outbox s !! nid = Some n ∧ state n = PENDING ∧ visible s n = true ∧
       c ∈ targets s over n ∧ send c nid = true.

#[global] Instance sent_over_dec send over s c nid : Decision (sent_over send over s c nid).
Proof.
  unfold sent_over. destruct (outbox s !! nid) as [n|].
  - destruct (decide (state n = PENDING ∧ visible s n = true ∧
                      c ∈ targets s over n ∧ send c nid = true)) as [H|H].
    + left. exists n. tauto.
    + right. intros (m & [= <-] & Hm). tauto.
  - right. by intros (m & [=] & _).
Defined.

(** An attempt was made for the record with id [nid]. *)
Definition tried (s : System) (nid : nat) : Prop :=
  ∃ n, outbox s !! nid = Some n ∧ state n = PENDING ∧ visible s n = true.

#[global] Instance tried_dec s nid : Decision (tried s nid).
Proof.
  unfold tried. destruct (outbox s !! nid) as [n|].
  - destruct (decide (state n = PENDING ∧ visible s n = true)) as [H|H].
    + left. exists n. tauto.
    + right. intros (m & [= <-] & Hm). tauto.
  - right. by intros (m & [=] & _).
Defined.


(** Frames added to the outbound log of a connection. *)
Definition add_frames (fs : list Frame) (conn : Connection) : Connection :=
  {| owner := owner conn; established_at := established_at conn;
     liveness := liveness conn; catching_up := catching_up conn;
     outbound := outbound conn ++ fs |}.

(** The transport is down for [j] rounds of the retry sweep, [dt] apart. *)
Definition outage (send : nat → nat → bool) (dt j : nat) : list Label :=
  concat (replicate j [Tick dt; RetrySweep send]).

(** *** The scenarios of the specification *)

(** Modelled from the spec: the scenarios of the testable properties.  Actor
    A is identity 1 with the followers B = 2 and C = 3, whose FollowEdges
    are accepted; D = 4 follows nobody.  The retry bound lets the fifth
    failure in a row expire a record. *)
Module Scenario.
Definition A : nat := 1.
Definition B : nat := 2.
Definition C : nat := 3.
Definition D : nat := 4.

Definition cfg : Config :=
  {| max_attempts := 4; backoff_base := 1; backoff_ceiling := 60 |}.

Definition world (p : Privacy) : System :=
  init (fun i => if decide (i = A) then p else PUBLIC) {[ (B, A); (C, A) ]}.

Definition e1 : Event :=
  {| event_id := 1; kind := POST; actor_id := A; target_id := 10; created_at := 5 |}.
Definition e2 : Event :=
  {| event_id := 2; kind := COMMENT; actor_id := A; target_id := 10; created_at := 6 |}.
Definition e3 : Event :=
  {| event_id := 3; kind := LIKE; actor_id := A; target_id := 10; created_at := 7 |}.
Definition e4 : Event :=
  {| event_id := 4; kind := FOLLOW; actor_id := A; target_id := D; created_at := 8 |}.
Definition e5 : Event :=
  {| event_id := 5; kind := POST; actor_id := A; target_id := 11; created_at := 9 |}.

(** The transport confirms every send, or none. *)
Definition up : nat → nat → bool := fun _ _ => true.
Definition down : nat → nat → bool := fun _ _ => false.

(** B is online over connection 100 when e1 is delivered. *)
Definition delivered_to_B : System :=
  run cfg [Publish e1; Connect B 100; CatchUp 100 up; Deliver e1 up] (world PUBLIC).

(** B is offline when e3 and then e1 arrive, and connects later. *)
Definition B_offline : System :=
  run cfg [Publish e1; Publish e3; Deliver e3 up; Deliver e1 up] (world PUBLIC).

Definition B_back : System := step cfg (Connect B 100) B_offline.

(** D has asked to follow A; the FollowEdge is not accepted. *)
Definition D_asks : System := step cfg (Follow D A) (world PUBLIC).
End Scenario.

End Engine.

(* ===================================================================== *)
(** ** JavaScript values of the pages *)
(* ===================================================================== *)

Module Js.

(** The values the pages read from API responses and form inputs: a string,
    or [undefined] for a property that is missing. *)
Inductive JsValue :=
  | Undefined
  | Str (s : string).

#[global] Instance JsValue_eq_dec : EqDecision JsValue.
Proof. solve_decision. Defined.

(** [obj.k]: a missing property reads as [undefined]. *)
Definition get (obj : gmap string JsValue) (k : string) : JsValue :=
  default Undefined (obj !! k).

(** Truthiness: [undefined] and the empty string are falsy. *)
Definition truthy (v : JsValue) : bool :=
  match v with
  | Undefined => false
  | Str s => negb (String.eqb s EmptyString)
  end.

(** [{...prev, [k]: v}]; spreading [null] gives no property. *)
Definition spread_set (prev : option (gmap string JsValue)) (k : string) (v : JsValue)
    : gmap string JsValue :=
  <[k := v]> (default ∅ prev).

End Js.

(* ===================================================================== *)
(** ** The dashboard page: repeated logouts, the current user *)
(* ===================================================================== *)

Module DashboardSession.
Import Dashboard.

(** What happens on the page over time: the logout button is pressed and the
    backend call settles with [r], or [dt] milliseconds pass. *)
Inductive Action :=
  | Click (r : LogoutResult)
  | Wait (dt : nat).

Definition perform (a : Action) (b : Browser) : Browser :=
  match a with
  | Click r => handleLogout r b
  | Wait dt => advance dt b
  end.

Definition session (script : list Action) (b : Browser) : Browser :=
  foldl (fun acc a => perform a acc) b script.

Definition is_click (a : Action) : bool :=
  match a with Click _ => true | Wait _ => false end.

(** What holds of the page during a session: every queued timer navigates to
    '/' and is due within 1500 ms, and once the button has been pressed the
    storage is empty and the route is '/' or a timer is still queued. *)
Definition logout_invariant (clicked : bool) (b : Browser) : Prop :=
  Forall (fun t => t.2 = RouterPush "/"%string ∧ t.1 <= now b + 1500) (timers b) ∧
  (clicked = true →
   localStorage b = ∅ ∧ (route b = "/"%string ∨ timers b ≠ [])).

End DashboardSession.

Module DashboardUser.
Import Js.

#[local] Open Scope string_scope.

(** The part of the component the user state lives in: [currentUser], the
    toasts shown, the console, and the files sent to [userApi.updateAvatar]. *)
Record Component := {
  currentUser : option (gmap string JsValue);
  toasts : list Dashboard.Toast;
  console : list string;
  uploads : list string;
}.

(** [useState(null)] *)
Definition mounted : Component :=
  {| currentUser := None; toasts := []; console := []; uploads := [] |}.

(** How [await userApi.getProfile()] settles. *)
Inductive ProfileResponse :=
  | ProfileOk (data : gmap string JsValue)
  | ProfileThrows.

(** How [await userApi.updateAvatar(file)] settles; [avatar_url] is
    [response.data.avatar_url]. *)
Inductive AvatarResponse :=
  | AvatarOk (avatar_url : JsValue)
  | AvatarThrows.

(** [loadUser], run once by the effect. *)
Definition loadUser (r : ProfileResponse) (c : Component) : Component :=
  match r with
  | ProfileOk data =>
      {| currentUser := Some data; toasts := toasts c; console := console c;
         uploads := uploads c |}
  | ProfileThrows =>
      {| currentUser := currentUser c;
         toasts := toasts c ++ [Dashboard.ToastError "Failed to load user profile"];
         console := console c ++ ["Error loading user profile:"];
         uploads := uploads c |}
  end.

(** [handleAvatarUpload(file)] *)
Definition handleAvatarUpload (r : AvatarResponse) (file : string) (c : Component)
    : Component :=
  match r with
  | AvatarOk avatar_url =>
      {| currentUser := Some (spread_set (currentUser c) "avatar" avatar_url);
         toasts := toasts c ++ [Dashboard.ToastSuccess "Avatar updated successfully"];
         console := console c;
         uploads := uploads c ++ [file] |}
  | AvatarThrows =>
      {| currentUser := currentUser c;
         toasts := toasts c ++ [Dashboard.ToastError "Failed to update avatar"];
         console := console c;
         uploads := uploads c ++ [file] |}
  end.

(** [handleImageUpload(event)]: [files] is [event.target.files], [None] when it
    is [null]; [api] tells how the upload of a file settles. *)
Definition handleImageUpload (files : option (list string))
    (api : string → AvatarResponse) (c : Component) : Component :=
  match files ≫= head with
  | Some file => handleAvatarUpload (api file) file c
  | None => c
  end.

(** [currentUser?.k] *)
Definition user_field (c : Component) (k : string) : JsValue :=
  match currentUser c with
  | Some u => get u k
  | None => Undefined
  end.

(** The avatar of the sidebar: the image when [currentUser?.avatar] is truthy,
    the user icon otherwise. *)
Inductive AvatarView :=
  | Img (src alt : JsValue)
  | UserIcon.

Definition sidebar_avatar (c : Component) : AvatarView :=
  if truthy (user_field c "avatar")
  then Img (user_field c "avatar") (user_field c "name")
  else UserIcon.

End DashboardUser.

(* ===================================================================== *)
(** ** The profile pages ([app/profile/[uuid]/page.tsx], [app/profile/page.tsx]) *)
(* ===================================================================== *)

Module Profile.
Import Js.

#[local] Open Scope string_scope.

(** [router.query.uuid]: a string, an array of strings, or [undefined]. *)
Inductive Query :=
  | QUndefined
  | QString (s : string)
  | QArray (l : list string).

(** [if (uuid)]: an array is truthy, the empty string is not. *)
Definition query_truthy (q : Query) : bool :=
  match q with
  | QUndefined => false
  | QString s => negb (String.eqb s EmptyString)
  | QArray _ => true
  end.

(** The calls made to [userApi]. *)
Inductive Request :=
  | GetUserProfile (uuid : Query)
  | GetProfile
  | UpdateProfile (data : gmap string JsValue).

(** How a call settles: with the response, or with a thrown [Error] whose
    [message] is given. *)
Inductive Settled :=
  | Resolved (data : gmap string JsValue)
  | Rejected (message : JsValue).

(** The state of a profile page: the three [useState] cells, and around them
    the calls made, the toasts shown and the route. *)
Record PageState := {
  profile : option (gmap string JsValue);
  loading : bool;
  error : option JsValue;
  requests : list Request;
  toasts : list Dashboard.Toast;
  route : string;
}.

(** [useState(null)], [useState(true)], [useState(null)] *)
Definition mounted (path : string) : PageState :=
  {| profile := None; loading := true; error := None; requests := [];
     toasts := []; route := path |}.

(** What a page renders.  [TypeError] is the read of a property of a [null]
    profile. *)
Inductive View :=
  | Loading
  | ErrorView (message : JsValue)
  | ProfileView (username first_name last_name email bio : JsValue) (edit_button : bool)
  | TypeError.

(** *** [ProfilePage] of [app/profile/[uuid]/page.tsx] *)

(** [fetchProfile] up to its [await]: [setLoading(true)] and the call, to the
    other user's profile when [uuid] is truthy. *)
Definition fetch_start (uuid : Query) (st : PageState) : PageState :=
  {| profile := profile st; loading := true; error := error st;
     requests := requests st ++ [if query_truthy uuid then GetUserProfile uuid
                                 else GetProfile];
     toasts := toasts st; route := route st |}.

(** [fetchProfile] after its [await]: [setProfile] or [setError], and
    [setLoading(false)] in the [finally]. *)
Definition fetch_settle (r : Settled) (st : PageState) : PageState :=
  match r with
  | Resolved data =>
      {| profile := Some data; loading := false; error := error st;
         requests := requests st; toasts := toasts st; route := route st |}
  | Rejected message =>
      {| profile := profile st; loading := false; error := Some message;
         requests := requests st; toasts := toasts st; route := route st |}
  end.

Definition render (uuid : Query) (st : PageState) : View :=
  if loading st then Loading
  else match error st with
       | Some message => ErrorView message
       | None =>
           match profile st with
           | Some p =>
               ProfileView (get p "username") (get p "first_name") (get p "last_name")
                 (get p "email") (get p "bio") (negb (query_truthy uuid))
           | None => TypeError
           end
       end.

Definition is_profile_view (v : View) : bool :=
  match v with ProfileView _ _ _ _ _ _ => true | _ => false end.

(** The effect runs again whenever [uuid] changes, and every call settles at
    some later time. *)
Inductive Event :=
  | Start (uuid : Query)
  | Settle (r : Settled).

Definition handle (ev : Event) (st : PageState) : PageState :=
  match ev with
  | Start uuid => fetch_start uuid st
  | Settle r => fetch_settle r st
  end.

Definition run (evs : list Event) (st : PageState) : PageState :=
  foldl (fun acc ev => handle ev acc) st evs.

(** *** [ProfilePage] of [app/profile/page.tsx] *)

Definition own_fetch_start (st : PageState) : PageState :=
  {| profile := profile st; loading := true; error := error st;
     requests := requests st ++ [GetProfile];
     toasts := toasts st; route := route st |}.

Definition own_fetch_settle (r : Settled) (st : PageState) : PageState :=
  match r with
  | Resolved data =>
      {| profile := Some data; loading := false; error := error st;
         requests := requests st; toasts := toasts st; route := route st |}
  | Rejected message =>
      {| profile := profile st; loading := false; error := Some message;
         requests := requests st;
         toasts := toasts st ++ [Dashboard.ToastError "Failed to load profile"];
         route := route st |}
  end.

(** The page always offers the Edit Profile button. *)
Definition own_render (st : PageState) : View := render QUndefined st.

(** *** [EditProfilePage] *)

Record EditState := {
  profileData : gmap string JsValue;
  edit_loading : bool;
  edit_error : option JsValue;
  edit_requests : list Request;
  edit_route : string;
}.

(** [useState({ first_name: '', last_name: '', bio: '' })] and the effect,
    which has called [userApi.getProfile()]. *)
Definition edit_mounted (path : string) : EditState :=
  {| profileData := {[ "first_name" := Str EmptyString; "last_name" := Str EmptyString;
                       "bio" := Str EmptyString ]};
     edit_loading := true; edit_error := None;
     edit_requests := [GetProfile]; edit_route := path |}.

Definition edit_fetch_settle (r : Settled) (st : EditState) : EditState :=
  match r with
  | Resolved data =>
      {| profileData := data; edit_loading := false; edit_error := edit_error st;
         edit_requests := edit_requests st; edit_route := edit_route st |}
  | Rejected message =>
      {| profileData := profileData st; edit_loading := false;
         edit_error := Some message;
         edit_requests := edit_requests st; edit_route := edit_route st |}
  end.

(** [handleChange(e)] with [e.target.name] and [e.target.value] *)
Definition handleChange (name value : string) (st : EditState) : EditState :=
  {| profileData := spread_set (Some (profileData st)) name (Str value);
     edit_loading := edit_loading st; edit_error := edit_error st;
     edit_requests := edit_requests st; edit_route := edit_route st |}.

(** How [await userApi.updateProfile(profileData)] settles. *)
Inductive Saved :=
  | SaveOk
  | SaveThrows (message : JsValue).

(** [handleSubmit(e)] *)
Definition handleSubmit (r : Saved) (st : EditState) : EditState :=
  match r with
  | SaveOk =>
      {| profileData := profileData st; edit_loading := edit_loading st;
         edit_error := edit_error st;
         edit_requests := edit_requests st ++ [UpdateProfile (profileData st)];
         edit_route := "/profile" |}
  | SaveThrows message =>
      {| profileData := profileData st; edit_loading := edit_loading st;
         edit_error := Some message;
         edit_requests := edit_requests st ++ [UpdateProfile (profileData st)];
         edit_route := edit_route st |}
  end.

Inductive EditView :=
  | EditLoading
  | EditError (message : JsValue)
  | Form (first_name last_name bio : JsValue).

Definition edit_render (st : EditState) : EditView :=
  if edit_loading st then EditLoading
  else match edit_error st with
       | Some message => EditError message
       | None => Form (get (profileData st) "first_name")
                   (get (profileData st) "last_name") (get (profileData st) "bio")
       end.

Definition form_shown (st : EditState) : bool :=
  match edit_render st with Form _ _ _ => true | _ => false end.

(** [handleSubmit(e)] up to its [await]: the call of
    [userApi.updateProfile(profileData)]. *)
Definition submit_call (st : EditState) : EditState :=
  {| profileData := profileData st; edit_loading := edit_loading st;
     edit_error := edit_error st;
     edit_requests := edit_requests st ++ [UpdateProfile (profileData st)];
     edit_route := edit_route st |}.

(** [handleSubmit(e)] after its [await], when the call has settled:
    [router.push(`/profile`)], or [setError(err)] in the [catch]. *)
Definition submit_settle (r : Saved) (st : EditState) : EditState :=
  match r with
  | SaveOk =>
      {| profileData := profileData st; edit_loading := edit_loading st;
         edit_error := edit_error st; edit_requests := edit_requests st;
         edit_route := "/profile" |}
  | SaveThrows message =>
      {| profileData := profileData st; edit_loading := edit_loading st;
         edit_error := Some message; edit_requests := edit_requests st;
         edit_route := edit_route st |}
  end.

(** The events of the edit page.  The inputs and the submit button exist
    only while the form is rendered; a save is called by a submit and
    settles at some later time, whatever the page shows by then, and several
    saves may be in flight.  [SaveThrows] carries the [Error] thrown. *)
Inductive EditEvent :=
  | EditSettle (r : Settled)
  | Change (name value : string)
  | SubmitClick
  | SubmitSettle (r : Saved).

Definition edit_handle (ev : EditEvent) (st : EditState) : EditState :=
  match ev with
  | EditSettle r => edit_fetch_settle r st
  | Change name value => if form_shown st then handleChange name value st else st
  | SubmitClick => if form_shown st then submit_call st else st
  | SubmitSettle r => submit_settle r st
  end.

Definition edit_run (evs : list EditEvent) (st : EditState) : EditState :=
  foldl (fun acc ev => edit_handle ev acc) st evs.

(** A save resolves among the events. *)
Definition save_resolves (evs : list EditEvent) : bool :=
  existsb (fun ev => match ev with SubmitSettle SaveOk => true | _ => false end) evs.

(** The value typed last into the input [k], if any. *)
Definition last_typed (k : string) (changes : list (string * string)) : option string :=
  snd <$> last (filter (fun c => c.1 = k) changes).

Definition type_all (changes : list (string * string)) (st : EditState) : EditState :=
  foldl (fun acc c => handleChange c.1 c.2 acc) st changes.

End Profile.

(* ===================================================================== *)
(** ** The [gender] column of [UserProfile] ([users/migrations/0001_initial.py]) *)
(* ===================================================================== *)

Module ProfileMigration.
Import Migration.

#[local] Open Scope string_scope.

(** [('gender', models.CharField(blank=True, choices=[('MALE', 'Male'),
      ('FEMALE', 'Female'), ('OTHER', 'Other'),
      ('PREFER_NOT_TO_SAY', 'Prefer not to say')], max_length=20))] *)
Definition gender : CharField :=
  {| choices := [ ("MALE", "Male"); ("FEMALE", "Female"); ("OTHER", "Other");
                  ("PREFER_NOT_TO_SAY", "Prefer not to say") ];
     max_length := 20;
     blank := true |}.

End ProfileMigration.

(* ===================================================================== *)
(** ** Properties of the dashboard page *)
(* ===================================================================== *)

Module DashboardFacts.
Import Dashboard.

#[local] Open Scope string_scope.

Section SliceFacts.
Context {A : Type}.
Implicit Types arr : list A.

Lemma relative_index_nonneg (len i : Z) :
  (0 <= i)%Z -> relative_index len i = Z.min i len.
Proof.
  intros Hi. unfold relative_index.
  destruct (Z.ltb_spec i 0); [lia | reflexivity].
Qed.

Lemma slice_0_2 arr : slice 0 (Some 2%Z) arr = take 2 arr.
Proof.
  unfold slice. rewrite !relative_index_nonneg by lia.
  rewrite (Z.min_l 0) by lia. rewrite Z.sub_0_r. change (Z.to_nat 0) with 0%nat.
  rewrite drop_0.
  destruct (Z.min_spec 2 (Z.of_nat (length arr))) as [[Hlt ->]|[Hge ->]].
  - rewrite Z.max_l by lia. reflexivity.
  - rewrite Z.max_l by lia. rewrite Nat2Z.id.
    rewrite take_ge by lia. symmetry. apply take_ge. lia.
Qed.

Lemma slice_2 arr : slice 2 None arr = drop 2 arr.
Proof.
  unfold slice. rewrite relative_index_nonneg by lia.
  destruct (Z.min_spec 2 (Z.of_nat (length arr))) as [[Hlt ->]|[Hge ->]].
  - change (Z.to_nat 2) with 2%nat.
    apply take_ge. rewrite length_drop. lia.
  - rewrite Z.sub_diag. change (Z.to_nat (Z.max 0 0)) with 0%nat.
    rewrite take_0. symmetry. apply drop_ge. lia.
Qed.
End SliceFacts.

(** C10. The 'Latest For You' section renders the first two posts, the
    'Trending Posts' section renders the posts after them, and for every
    posts list the two sections together render the whole list: each post
    once, in list order. *)
Theorem sections_render_each_post_once (posts : list Post) :
  latestForYou posts = PostCard <$> take 2 posts ∧
  trendingPosts posts = PostCard <$> drop 2 posts ∧
  (latestForYou posts ++ trendingPosts posts)%list = PostCard <$> posts ∧
  props_post <$> (latestForYou posts ++ trendingPosts posts)%list = posts.
Proof.
  unfold latestForYou, trendingPosts. rewrite slice_0_2, slice_2.
  assert (Hcat : ((PostCard <$> take 2 posts) ++ (PostCard <$> drop 2 posts))%list
                 = PostCard <$> posts).
  { rewrite <- fmap_app. by rewrite take_drop. }
  repeat split; try done.
  rewrite Hcat, <- list_fmap_compose.
  clear Hcat. induction posts as [|p ps IH]; [done|].
  rewrite fmap_cons, IH. reflexivity.
Qed.

Example mockPosts_sections :
  key <$> latestForYou mockPosts = [1%Z; 2%Z] ∧ trendingPosts mockPosts = [].
Proof. split; reflexivity. Qed.

(** Timers of a page on which [handleLogout] has just failed. *)
Lemma advance_before_due (b : Browser) (due : nat) (cb : Callback) (dt : nat) :
  timers b = [(due, cb)] -> now b + dt < due -> route (advance dt b) = route b.
Proof.
  intros Ht Hlt. unfold advance. rewrite Ht.
  rewrite filter_cons_False by (simpl; lia). reflexivity.
Qed.

Lemma advance_after_due (b : Browser) (due : nat) (path : string) (dt : nat) :
  timers b = [(due, RouterPush path)] -> due <= now b + dt ->
  route (advance dt b) = path ∧ localStorage (advance dt b) = localStorage b.
Proof.
  intros Ht Hle. unfold advance. rewrite Ht.
  rewrite filter_cons_True by (simpl; lia). split; reflexivity.
Qed.

(** C9. [handleLogout] empties [localStorage] on both paths.  When the
    backend call resolves it navigates to '/' at once; when the call throws
    it queues the navigation to '/' with a delay of 1500 ms: the route is
    unchanged before that and is '/' from then on, with the storage still
    empty. *)
Theorem handleLogout_clears_storage_and_navigates
    (r : LogoutResult) (b0 : Browser) (storage : gmap string string) (path : string) :
  localStorage (handleLogout r b0) = ∅ ∧
  let b := handleLogout r (page storage path) in
  match r with
  | Resolved => route b = "/" ∧ timers b = []
  | Rejected _ =>
      route b = path ∧
      timers b = [(1500, RouterPush "/")] ∧
      (∀ dt, dt < 1500 -> route (advance dt b) = path) ∧
      (∀ dt, 1500 <= dt ->
         route (advance dt b) = "/" ∧ localStorage (advance dt b) = ∅)
  end.
Proof.
  split.
  - destruct r as [|[msg|]]; reflexivity.
  - destruct r as [|err]; [split; reflexivity|].
    intros b.
    assert (Ht : timers b = [(1500, RouterPush "/")]) by (destruct err; reflexivity).
    assert (Hr : route b = path) by (destruct err; reflexivity).
    assert (Hn : now b = 0) by (destruct err; reflexivity).
    assert (Hs : localStorage b = ∅) by (destruct err; reflexivity).
    clearbody b. split; [done|]. split; [done|]. split.
    + intros dt Hdt. rewrite <- Hr.
      apply (advance_before_due b 1500 (RouterPush "/")); [done | lia].
    + intros dt Hdt. rewrite <- Hs.
      apply (advance_after_due b 1500 "/" dt); [done | lia].
Qed.

Lemma handleLogout_witness :
  localStorage (handleLogout (Rejected OtherError)
                  (page {[ "access_token" := "abc" ]} "/dashboard")) = ∅ ∧
  route (advance 1499 (handleLogout (Rejected OtherError)
                         (page {[ "access_token" := "abc" ]} "/dashboard")))
  = "/dashboard" ∧
  route (advance 1500 (handleLogout (Rejected OtherError)
                         (page {[ "access_token" := "abc" ]} "/dashboard"))) = "/".
Proof.
  destruct (handleLogout_clears_storage_and_navigates (Rejected OtherError)
              (page {[ "access_token" := "abc" ]} "/dashboard")
              {[ "access_token" := "abc" ]} "/dashboard")
    as [Hclear (_ & _ & Hbefore & Hafter)].
  split; [exact Hclear|]. split.
  - apply Hbefore. lia.
  - apply Hafter. lia.
Defined.

End DashboardFacts.

(* ===================================================================== *)
(** ** Properties of the response envelope *)
(* ===================================================================== *)

Module ResponseFacts.
Import Response Query.

#[local] Open Scope string_scope.

(** Membership in a list that is written out. *)
Ltac in_list := apply list_elem_of_In; vm_compute; intuition.

Lemma catalog_is_message_domain (code : string) :
  code ∈ catalog ↔ is_Some (ERROR_MESSAGES !! code).
Proof.
  split.
  - intros Hin. unfold catalog in Hin.
    repeat (apply elem_of_cons in Hin as [-> | Hin]; [by eexists|]).
    by apply elem_of_nil in Hin.
  - intros [msg Hmsg]. unfold ERROR_MESSAGES in Hmsg.
    apply elem_of_list_to_map_2 in Hmsg.
    repeat (apply elem_of_cons in Hmsg as [Heq | Hmsg];
            [injection Heq as -> _; in_list|]).
    by apply elem_of_nil in Hmsg.
Qed.

(** The claim as it is stated has three concerns; the catalog has a fourth
    group, the profile codes. *)
Lemma catalog_has_a_fourth_group :
  ¬ (∀ code, code ∈ catalog → prefix_of_code code ∈ ["AUTH"; "USER"; "VAL"]).
Proof.
  intros H. specialize (H ErrorCode.INVALID_IMAGE).
  assert (Hin : ErrorCode.INVALID_IMAGE ∈ catalog) by (in_list).
  apply H in Hin. apply list_elem_of_In in Hin. vm_compute in Hin.
  intuition discriminate.
Qed.

(** What the two helpers build, whatever they are called with. *)
Lemma helpers_build_the_bodies :
  (∀ message body success status,
     let r := api_response message body success status in
     keys r = ["success"; "message"; "data"] ∧
     field "success" r = Some (PyBool success) ∧
     field "message" r = Some (PyStr message) ∧
     field "data" r = Some body ∧
     field "error_code" r = None ∧
     Response.status_code r = status) ∧
  (∀ message code status errors,
     let r := error_response message code status errors in
     keys r = ["success"; "message"; "error_code"; "errors"] ∧
     field "success" r = Some (PyBool false) ∧
     field "message" r = Some (PyStr message) ∧
     field "error_code" r = Some (PyStr code) ∧
     field "errors" r = Some errors ∧
     field "data" r = None ∧
     Response.status_code r = status).
Proof. split; intros; repeat split; reflexivity. Qed.

Lemma catalog_has_four_groups :
  length catalog = 12 ∧ NoDup catalog ∧
  (∀ code, code ∈ catalog →
     prefix_of_code code ∈ ["AUTH"; "USER"; "VAL"; "PROF"]) ∧
  (∀ group, group ∈ ["AUTH"; "USER"; "VAL"; "PROF"] →
     ∃ code, code ∈ catalog ∧ prefix_of_code code = group).
Proof.
  split; [reflexivity|].
  split; [refine (bool_decide_unpack (NoDup catalog) _); vm_compute; exact I|].
  split.
  { intros code Hin. unfold catalog in Hin.
    repeat (apply elem_of_cons in Hin as [-> | Hin]; [in_list|]).
    by apply elem_of_nil in Hin. }
  intros group Hin.
  apply elem_of_cons in Hin as [-> | Hin];
    [exists ErrorCode.INVALID_CREDENTIALS; split; [in_list | reflexivity]|].
  apply elem_of_cons in Hin as [-> | Hin];
    [exists ErrorCode.USER_NOT_FOUND; split; [in_list | reflexivity]|].
  apply elem_of_cons in Hin as [-> | Hin];
    [exists ErrorCode.INVALID_PASSWORD; split; [in_list | reflexivity]|].
  apply elem_of_cons in Hin as [-> | Hin];
    [exists ErrorCode.INVALID_IMAGE; split; [in_list | reflexivity]|].
  by apply elem_of_nil in Hin.
Qed.

Lemma messages_are_not_empty code msg :
  ERROR_MESSAGES !! code = Some msg → msg ≠ EmptyString.
Proof.
  intros Hmsg. unfold ERROR_MESSAGES in Hmsg.
  apply elem_of_list_to_map_2 in Hmsg.
  repeat (apply elem_of_cons in Hmsg as [Heq | Hmsg];
          [injection Heq as _ ->; discriminate|]).
  by apply elem_of_nil in Hmsg.
Qed.

(** C4 (as amended).  Every answer of a synchronous query is the uniform
    envelope: what was found is answered with
    {success: true, message, data} and no error code; a failure named by a
    code of the catalog is answered with
    {success: false, message, error_code, errors}, the message being the one
    [ERROR_MESSAGES] defines for the code, which is not empty; a code outside
    the catalog gives no answer.  The catalog holds twelve distinct codes in
    four groups, AUTH, USER, VAL and PROF, and [ERROR_MESSAGES] defines a
    message for exactly the codes of the catalog. *)
Theorem queries_answer_with_the_envelope :
  (∀ o r, answer o = Some r → uniform_envelope r) ∧
  (∀ message payload,
     ∃ r, answer (Found message payload) = Some r ∧
          field "success" r = Some (PyBool true) ∧
          field "message" r = Some (PyStr message) ∧
          field "data" r = Some payload ∧
          field "error_code" r = None) ∧
  (∀ code errors, code ∈ catalog →
     ∃ r message,
       answer (Failed code errors) = Some r ∧
       ERROR_MESSAGES !! code = Some message ∧ message ≠ EmptyString ∧
       field "success" r = Some (PyBool false) ∧
       field "message" r = Some (PyStr message) ∧
       field "error_code" r = Some (PyStr code) ∧
       field "errors" r = Some errors ∧
       field "data" r = None) ∧
  (∀ code errors, code ∉ catalog → answer (Failed code errors) = None) ∧
  length catalog = 12 ∧ NoDup catalog ∧
  (∀ code, code ∈ catalog →
     prefix_of_code code ∈ ["AUTH"; "USER"; "VAL"; "PROF"]) ∧
  (∀ group, group ∈ ["AUTH"; "USER"; "VAL"; "PROF"] →
     ∃ code, code ∈ catalog ∧ prefix_of_code code = group) ∧
  (∀ code, code ∈ catalog ↔ is_Some (ERROR_MESSAGES !! code)).
Proof.
  split; [|split; [|split; [|split]]].
  - intros [message payload | code errors] r; simpl.
    + intros [= <-]. split; [by eexists|]. split; [by eexists|]. by left.
    + destruct (ERROR_MESSAGES !! code) as [message|] eqn:Hmsg; [|done].
      intros [= <-]. split; [by eexists|]. split; [by eexists|]. right.
      split; [by left|]. exists code. split; [reflexivity|].
      apply catalog_is_message_domain. by rewrite Hmsg.
  - intros message payload. eexists. split; [reflexivity|]. by repeat split.
  - intros code errors Hin.
    apply catalog_is_message_domain in Hin as [message Hmsg].
    exists (error_response message code HTTP_400_BAD_REQUEST errors), message.
    split; [simpl; by rewrite Hmsg|]. split; [done|].
    split; [by eapply messages_are_not_empty|]. by repeat split.
  - intros code errors Hout. simpl.
    destruct (ERROR_MESSAGES !! code) as [message|] eqn:Hmsg; [|done].
    exfalso. apply Hout, catalog_is_message_domain. by rewrite Hmsg.
  - destruct catalog_has_four_groups as (H1 & H2 & H3 & H4).
    split; [done|]. split; [done|]. split; [done|]. split; [done|].
    apply catalog_is_message_domain.
Qed.

Lemma queries_answer_witness :
  uniform_envelope
    (error_response "Invalid or expired token" ErrorCode.INVALID_TOKEN
       HTTP_400_BAD_REQUEST PyNone) ∧
  (∃ r message,
     answer (Failed ErrorCode.FILE_TOO_LARGE PyNone) = Some r ∧
     ERROR_MESSAGES !! ErrorCode.FILE_TOO_LARGE = Some message ∧
     message ≠ EmptyString ∧
     field "success" r = Some (PyBool false) ∧
     field "message" r = Some (PyStr message) ∧
     field "error_code" r = Some (PyStr ErrorCode.FILE_TOO_LARGE) ∧
     field "errors" r = Some PyNone ∧
     field "data" r = None) ∧
  answer (Failed "PAY_001" PyNone) = None ∧
  prefix_of_code ErrorCode.INVALID_IMAGE ∈ ["AUTH"; "USER"; "VAL"; "PROF"].
Proof.
  destruct queries_answer_with_the_envelope
    as (Henv & _ & Hfail & Hnone & _ & _ & Hgroup & _).
  split; [|split; [|split]].
  - apply (Henv (Failed ErrorCode.INVALID_TOKEN PyNone)). reflexivity.
  - apply Hfail. in_list.
  - apply Hnone. intros Hin. apply list_elem_of_In in Hin. vm_compute in Hin.
    intuition discriminate.
  - apply Hgroup. in_list.
Defined.

End ResponseFacts.

(* ===================================================================== *)
(** ** Properties of the account privacy column *)
(* ===================================================================== *)

Module MigrationFacts.
Import Migration.

#[local] Open Scope string_scope.

(** C8. The [account_privacy] column admits the value PUBLIC and the value
    PRIVATE and no other value. *)
Theorem account_privacy_public_or_private (value : string) :
  admits account_privacy value ↔ value = "PUBLIC" ∨ value = "PRIVATE".
Proof.
  unfold admits, validate. split.
  - destruct (decide (value = EmptyString)) as [->|Hne]; [discriminate|].
    destruct (bool_decide (value ∈ (choices account_privacy).*1)) eqn:Hin;
      [|discriminate].
    intros _. apply bool_decide_eq_true in Hin. simpl in Hin.
    apply elem_of_cons in Hin as [-> | Hin]; [by left|].
    apply elem_of_cons in Hin as [-> | Hin]; [by right|].
    by apply elem_of_nil in Hin.
  - intros [-> | ->]; reflexivity.
Qed.

End MigrationFacts.

(* ===================================================================== *)
(** ** What the deployment says about Redis *)
(* ===================================================================== *)

Module ComposeFacts.
Import Compose.

#[local] Open Scope string_scope.

(** The Redis service keeps an append-only file on a named volume, and the
    backend reaches it as its channel layer host and through [REDIS_URL]. *)
Example redis_is_durable_and_used_by_backend :
  command redis = [ "redis-server"; "--appendonly"; "yes" ] ∧
  volumes redis = [ "redis_data:/data" ] ∧
  "redis_data" ∈ named_volumes ∧
  env "CHANNEL_LAYERS_HOST" backend = Some "redis" ∧
  env "REDIS_URL" backend = Some "redis://redis:6379/0" ∧
  "redis" ∈ depends_on backend.
Proof.
  repeat split; try reflexivity; apply list_elem_of_In; vm_compute; intuition.
Qed.

End ComposeFacts.

(* ===================================================================== *)
(** ** Properties of the delivery engine *)
(* ===================================================================== *)

Module EngineFacts.
Import Engine.

Create HintDb engine discriminated.

(** A decidable closed proposition, settled by evaluation. *)
Ltac by_evaluation := refine (bool_decide_unpack _ _); vm_compute; exact I.

(** *** Every operation is made of atomic moves *)

Section Moves.
Variable cfg : Config.

Lemma foldl_moves {X} (f : System → X → System) (xs : list X) :
  (∀ s x, moves cfg s (f s x)) →
  ∀ s, moves cfg s (foldl f s xs).
Proof.
  intros Hf. induction xs as [|x xs IH]; intros s; simpl.
  - apply moves_refl.
  - eapply moves_trans; [apply Hf | apply IH].
Qed.

Lemma attempt_moves send over nid s : moves cfg s (attempt cfg send over nid s).
Proof.
  unfold attempt.
  destruct (find_notification nid (outbox s)) as [n|] eqn:Hfind;
    [|apply moves_refl].
  destruct (decide (state n = PENDING)) as [Hp|]; [|apply moves_refl].
  destruct (visible s n); [|apply moves_refl].
  destruct (filter _ _) as [|c cs].
  - by eapply moves_attempt_failed.
  - by eapply moves_attempt_sent.
Qed.

Lemma push_moves send nid s : moves cfg s (push cfg send nid s).
Proof. apply attempt_moves. Qed.

Lemma replay_one_moves send c s nid : moves cfg s (replay_one cfg send c s nid).
Proof. apply attempt_moves. Qed.

Lemma deliver_candidate_moves send e s r :
  moves cfg s (deliver_candidate cfg send e s r).
Proof.
  unfold deliver_candidate.
  destruct (canSee _ _ _ _); [|apply moves_refl].
  destruct (has_notification _ _ _) eqn:Hhas; [apply moves_refl|].
  eapply moves_trans; [by apply moves_create | apply push_moves].
Qed.

Lemma process_moves send e s : moves cfg s (process cfg send e s).
Proof. unfold process. apply foldl_moves. intros. apply deliver_candidate_moves. Qed.

Lemma retry_sweep_moves send s : moves cfg s (retry_sweep cfg send s).
Proof. unfold retry_sweep. apply foldl_moves. intros. apply push_moves. Qed.

Lemma connect_moves i c s : moves cfg s (connect i c s).
Proof.
  unfold connect. destruct (connections s !! c) eqn:Hc; [apply moves_refl|].
  by apply (moves_open cfg s i c
              {| owner := i; established_at := clock s; liveness := OPEN;
                 catching_up := true; outbound := [] |}).
Qed.

Lemma catch_up_moves send c s : moves cfg s (catch_up cfg send c s).
Proof.
  unfold catch_up. destruct (connections s !! c) as [conn|]; [|apply moves_refl].
  destruct (decide _); [|apply moves_refl].
  eapply moves_trans; [|apply moves_caught_up].
  apply foldl_moves. intros. apply replay_one_moves.
Qed.

Lemma begin_close_moves c s : moves cfg s (begin_close c s).
Proof.
  unfold begin_close. destruct (connections s !! c) as [conn|] eqn:Hc;
    [|apply moves_refl].
  destruct (decide (liveness conn = OPEN)); [|apply moves_refl].
  by apply moves_close.
Qed.

Lemma disconnect_moves c s : moves cfg s (disconnect c s).
Proof.
  unfold disconnect. destruct (connections s !! c) as [conn|] eqn:Hc;
    [|apply moves_refl].
  by apply moves_close.
Qed.

Lemma ack_moves c nid s : moves cfg s (ack c nid s).
Proof.
  unfold ack. destruct (connections s !! c) as [conn|]; [|apply moves_refl].
  destruct (find_notification nid (outbox s)) as [n|]; [|apply moves_refl].
  destruct (decide _); [apply moves_write | apply moves_refl].
Qed.

Lemma publish_moves e s : moves cfg s (publish e s).
Proof.
  unfold publish. destruct (find_event _ _); [apply moves_refl|].
  by apply moves_external.
Qed.

Lemma step_moves l s : moves cfg s (step cfg l s).
Proof.
  destruct l; simpl.
  - apply publish_moves.
  - destruct (decide _); [apply process_moves | apply moves_refl].
  - by apply moves_external.
  - by apply moves_external.
  - by apply moves_external.
  - by apply moves_external.
  - apply connect_moves.
  - apply catch_up_moves.
  - apply begin_close_moves.
  - apply disconnect_moves.
  - apply ack_moves.
  - apply moves_write.
  - apply retry_sweep_moves.
  - apply moves_write.
  - apply moves_write.
  - by apply moves_external.
  - apply moves_restart.
Qed.

Lemma run_moves t s : moves cfg s (run cfg t s).
Proof. unfold run. apply foldl_moves. intros. apply step_moves. Qed.
End Moves.

(** *** Record updates *)

Lemma stable_with_delivery st a t : stable (with_delivery st a t).
Proof. intros n. by repeat split. Qed.

Lemma stable_write_state st : stable (write_state st).
Proof. intros n. unfold write_state. by destruct (edge _ _). Qed.

Lemma stable_record_failure cfg t : stable (record_failure cfg t).
Proof.
  intros n. unfold record_failure.
  destruct (decide _); [|done]. destruct (decide _); [|done].
  unfold write_state. by destruct (edge _ _).
Qed.

#[local] Hint Resolve stable_write_state stable_record_failure : engine.

Lemma update_lookup nid f ns k :
  update_notification nid f ns !! k
  = (fun n => if decide (notification_id n = nid) then f n else n) <$> ns !! k.
Proof. unfold update_notification. apply list_lookup_fmap. Qed.

Lemma update_length nid f ns : length (update_notification nid f ns) = length ns.
Proof. unfold update_notification. apply length_fmap. Qed.

Lemma update_keys nid f ns :
  stable f →
  notification_key <$> update_notification nid f ns = notification_key <$> ns.
Proof.
  intros Hf. unfold update_notification. rewrite <- list_fmap_compose.
  apply list_fmap_ext. intros _ n _. simpl.
  destruct (decide _); [|done].
  unfold notification_key. destruct (Hf n) as (_ & -> & ->). done.
Qed.

Lemma has_notification_true ns r ev :
  has_notification ns r ev = true ↔ (r, ev) ∈ notification_key <$> ns.
Proof. unfold has_notification. apply bool_decide_eq_true. Qed.

Lemma has_notification_false ns r ev :
  has_notification ns r ev = false ↔ (r, ev) ∉ notification_key <$> ns.
Proof. unfold has_notification. apply bool_decide_eq_false. Qed.

(** *** The store stays well formed *)

Lemma well_formed_update nid f s s' :
  stable f → outbox s' = update_notification nid f (outbox s) →
  next_id s' = next_id s → well_formed s → well_formed s'.
Proof.
  intros Hf Ho Hn [Hlen Hids]. split.
  - by rewrite Hn, Ho, update_length.
  - intros k n. rewrite Ho, update_lookup.
    destruct (outbox s !! k) as [m|] eqn:Hk; [|done]. simpl.
    intros [= <-]. destruct (decide _); [|by apply Hids].
    destruct (Hf m) as (-> & _). by apply Hids.
Qed.

Lemma well_formed_same s s' :
  outbox s' = outbox s → next_id s' = next_id s → well_formed s → well_formed s'.
Proof. intros Ho Hn [Hlen Hids]. split; [by rewrite Hn, Ho | by rewrite Ho]. Qed.

Lemma well_formed_create r ev s : well_formed s → well_formed (create r ev s).
Proof.
  intros [Hlen Hids]. split; simpl.
  - rewrite length_app. simpl. lia.
  - intros k n Hk. apply lookup_app_Some in Hk as [Hk | [Hge Hk]].
    + by apply Hids.
    + apply list_lookup_singleton_Some in Hk as [Hz <-]. simpl. lia.
Qed.

Lemma moves_well_formed cfg s s' :
  moves cfg s s' → well_formed s → well_formed s'.
Proof.
  induction 1 as [ | | s s' (Ho & Hn & _) | s r ev _ | s nid n cs _ _
                 | s nid n _ _ | s nid st | s i c conn _ _ _ _
                 | s c conn l _ _ | s c | s ]; intros Hwf.
  - done.
  - auto.
  - by apply (well_formed_same s).
  - by apply well_formed_create.
  - eapply well_formed_update; [apply stable_write_state | done..].
  - eapply well_formed_update; [apply stable_record_failure | done..].
  - eapply well_formed_update; [apply stable_write_state | done..].
  - by apply (well_formed_same s).
  - by apply (well_formed_same s).
  - by apply (well_formed_same s).
  - by apply (well_formed_same s).
Qed.

Lemma init_well_formed priv es : well_formed (init priv es).
Proof. split; [done | intros k n Hk; simpl in Hk; by rewrite lookup_nil in Hk]. Qed.

Lemma reachable_well_formed cfg priv es t : well_formed (run cfg t (init priv es)).
Proof. eapply moves_well_formed; [apply run_moves | apply init_well_formed]. Qed.

(** In a well-formed store a record is found at the position of its id. *)
Lemma find_notification_offset off nid ns :
  (∀ k n, ns !! k = Some n → notification_id n = off + k) →
  find_notification (off + nid) ns = ns !! nid.
Proof.
  revert off nid. induction ns as [|m ns IH]; intros off nid Hids.
  - by rewrite lookup_nil.
  - unfold find_notification. simpl.
    pose proof (Hids 0 m eq_refl) as Hm. rewrite Nat.add_0_r in Hm.
    destruct nid as [|nid].
    + rewrite Nat.add_0_r, Hm, Nat.eqb_refl. done.
    + destruct (Nat.eqb_spec (notification_id m) (off + S nid)) as [Heq|_]; [lia|].
      replace (off + S nid) with (S off + nid) by lia.
      apply (IH (S off) nid). intros k n Hk.
      rewrite (Hids (S k) n Hk). lia.
Qed.

Lemma find_notification_lookup s nid :
  well_formed s → find_notification nid (outbox s) = outbox s !! nid.
Proof. intros [_ Hids]. by apply (find_notification_offset 0). Qed.

(** *** At most one record per recipient and event *)

Lemma moves_keys_unique cfg s s' :
  moves cfg s s' →
  NoDup (notification_key <$> outbox s) → NoDup (notification_key <$> outbox s').
Proof.
  induction 1 as [ | | s s' (Ho & _) | s r ev Hnew | s nid n cs _ _
                 | s nid n _ _ | s nid st | s i c conn _ _ _ _
                 | s c conn l _ _ | s c | s ]; intros Hnd; simpl.
  - done.
  - auto.
  - by rewrite Ho.
  - rewrite fmap_app. apply NoDup_app. split; [done|]. split.
    + intros key Hin Hkey. apply list_elem_of_singleton in Hkey as ->.
      by apply has_notification_false in Hnew.
    + apply NoDup_singleton.
  - by rewrite update_keys by auto with engine.
  - by rewrite update_keys by auto with engine.
  - by rewrite update_keys by auto with engine.
  - done.
  - done.
  - done.
  - done.
Qed.

(** *** Relations on records, lifted along the moves *)

Section Lifted.
Variable R : Notification → Notification → Prop.
Hypothesis R_refl : ∀ n, R n n.
Hypothesis R_trans : ∀ a b c, R a b → R b c → R a c.
Variable cfg : Config.
Hypothesis R_write : ∀ st n, R n (write_state st n).
Hypothesis R_failure : ∀ t n, R n (record_failure cfg t n).



End Lifted.

(** *** C2 *)

(** C2. In every state the engine reaches, whatever was published,
    delivered and delivered again, the store holds at most one record for a
    recipient and an event id. *)
Theorem at_most_one_notification_per_recipient_and_event cfg priv es t :
  let s := run cfg t (init priv es) in
  NoDup (notification_key <$> outbox s) ∧
  ∀ k1 k2 n1 n2,
    outbox s !! k1 = Some n1 → outbox s !! k2 = Some n2 →
    recipient_id n1 = recipient_id n2 → notified_event n1 = notified_event n2 →
    k1 = k2.
Proof.
  intros s.
  assert (Hnd : NoDup (notification_key <$> outbox s)).
  { eapply moves_keys_unique; [apply run_moves|]. simpl. apply NoDup_nil_2. }
  split; [done|]. intros k1 k2 n1 n2 H1 H2 Hr He.
  eapply NoDup_lookup; [exact Hnd | |].
  - rewrite list_lookup_fmap, H1. reflexivity.
  - rewrite list_lookup_fmap, H2. simpl. unfold notification_key. by rewrite Hr, He.
Qed.

Lemma at_most_one_notification_witness :
  length (outbox (run Scenario.cfg
            [Publish Scenario.e1; Deliver Scenario.e1 Scenario.up;
             Deliver Scenario.e1 Scenario.down; Deliver Scenario.e1 Scenario.up]
            (Scenario.world PUBLIC))) = 2 ∧
  NoDup (notification_key <$> outbox (run Scenario.cfg
            [Publish Scenario.e1; Deliver Scenario.e1 Scenario.up;
             Deliver Scenario.e1 Scenario.down; Deliver Scenario.e1 Scenario.up]
            (Scenario.world PUBLIC))).
Proof.
  split; [vm_compute; reflexivity|].
  apply (at_most_one_notification_per_recipient_and_event Scenario.cfg).
Defined.

(** *** The Presence Registry *)

Lemma lookup_register reg i c i' c' :
  c' ∈ lookup (register i c reg) i' ↔ (i' = i ∧ c' = c) ∨ c' ∈ lookup reg i'.
Proof.
  unfold register, lookup at 1. rewrite lookup_insert.
  destruct (decide (i = i')) as [<-|Hne]; simpl.
  - rewrite elem_of_union, elem_of_singleton. tauto.
  - fold (lookup reg i'). split; [tauto|]. intros [[Heq _]|H]; [congruence | done].
Qed.

Lemma lookup_unregister reg i c i' c' :
  c' ∈ lookup (unregister i c reg) i' ↔ c' ∈ lookup reg i' ∧ ¬ (i' = i ∧ c' = c).
Proof.
  unfold unregister, lookup at 1. rewrite lookup_insert.
  destruct (decide (i = i')) as [<-|Hne]; simpl.
  - rewrite elem_of_difference, elem_of_singleton. tauto.
  - fold (lookup reg i'). split; [|tauto]. intros H. split; [done|].
    intros [Heq _]. congruence.
Qed.

Lemma lookup_empty_registry i : lookup ∅ i = ∅.
Proof. unfold lookup. by rewrite lookup_empty. Qed.

(** Sending frames changes the outbound logs only, and only by adding to
    them. *)
Lemma send_frames_lookup nid cs (m : gmap nat Connection) c :
  ∃ g, (∀ conn, owner (g conn) = owner conn ∧ liveness (g conn) = liveness conn ∧
                outbound conn `prefix_of` outbound (g conn)) ∧
       send_frames nid cs m !! c = g <$> m !! c.
Proof.
  induction cs as [|c0 cs (g & Hg & IH)]; simpl.
  - exists (fun conn => conn). split; [by intros conn | by rewrite option_fmap_id].
  - rewrite lookup_alter. destruct (decide (c0 = c)) as [->|Hne].
    + exists (fun conn => add_frame (NotificationFrame nid) (g conn)). split.
      * intros conn. destruct (Hg conn) as (Ho & Hl & Hp). simpl.
        repeat split; [done..|]. etrans; [exact Hp | by apply prefix_app_r].
      * rewrite IH. by destruct (m !! c).
    + by exists g.
Qed.

Lemma reconstruct_lookup (conns : gmap nat Connection) i c :
  c ∈ lookup (reconstruct conns) i ↔
  ∃ conn, conns !! c = Some conn ∧ liveness conn = OPEN ∧ owner conn = i.
Proof.
  unfold reconstruct. revert i c.
  apply (map_fold_weak_ind (fun reg m => ∀ i c,
    c ∈ lookup reg i ↔ ∃ conn, m !! c = Some conn ∧ liveness conn = OPEN ∧ owner conn = i)).
  - intros i c. rewrite lookup_empty_registry, elem_of_empty. split; [done|].
    intros (conn & Hc & _). by rewrite lookup_empty in Hc.
  - intros j x m reg Hj IH i c.
    assert (Hins : (∃ conn, <[j:=x]> m !! c = Some conn ∧ liveness conn = OPEN ∧ owner conn = i)
                   ↔ (c = j ∧ liveness x = OPEN ∧ owner x = i)
                     ∨ ∃ conn, m !! c = Some conn ∧ liveness conn = OPEN ∧ owner conn = i).
    { split.
      - intros (conn & Hc & Hl & Ho). apply lookup_insert_Some in Hc as [[-> ->]|[Hne Hc]].
        + by left.
        + right. by exists conn.
      - intros [(-> & Hl & Ho) | (conn & Hc & Hl & Ho)].
        + exists x. by rewrite lookup_insert_eq.
        + exists conn. split; [|done]. rewrite lookup_insert_ne; [done|].
          intros ->. congruence. }
    rewrite Hins. destruct (decide (liveness x = OPEN)) as [Hopen|Hclosed].
    + rewrite lookup_register, IH. split.
      * intros [[-> ->] | H]; [by left | by right].
      * intros [(-> & _ & <-) | H]; [by left | by right].
    + rewrite IH. split; [by right|]. intros [(_ & Hl & _) | H]; [done | done].
Qed.

Lemma moves_registry_exact cfg s s' :
  moves cfg s s' → registry_exact s → registry_exact s'.
Proof.
  induction 1 as [ | | s s' (_ & _ & Hc & Hr & _) | s r ev _ | s nid n cs _ _
                 | s nid n _ _ | s nid st | s i c conn Hfresh Ho Hl _
                 | s c conn l Hc Hl | s c | s ]; intros Hex.
  - done.
  - auto.
  - intros i c. rewrite Hc, Hr. apply Hex.
  - exact Hex.
  - intros i c. simpl. rewrite (Hex i c).
    destruct (send_frames_lookup nid cs (connections s) c) as (g & Hg & ->).
    split.
    + intros (conn & Hc & Hl & Ho). exists (g conn). rewrite Hc.
      destruct (Hg conn) as (-> & -> & _). done.
    + intros (conn' & Hc & Hl & Ho).
      destruct (connections s !! c) as [conn|]; [|done].
      simpl in Hc. injection Hc as <-. exists conn.
      destruct (Hg conn) as (Ho' & Hl' & _). by rewrite <- Ho', <- Hl'.
  - exact Hex.
  - exact Hex.
  - intros i' c'. simpl. rewrite lookup_register, (Hex i' c'). split.
    + intros [[-> ->] | (conn' & Hc' & Hl' & Ho')].
      * exists conn. by rewrite lookup_insert_eq.
      * exists conn'. split; [|done]. rewrite lookup_insert_ne; [done|].
        intros ->. congruence.
    + intros (conn' & Hc' & Hl' & Ho').
      apply lookup_insert_Some in Hc' as [[-> ->]|[Hne Hc']].
      * left. by rewrite <- Ho', Ho.
      * right. by exists conn'.
  - intros i' c'. simpl. rewrite lookup_unregister, (Hex i' c'). split.
    + intros [(conn' & Hc' & Hl' & Ho') Hnot].
      exists conn'. split; [|done]. rewrite lookup_insert_ne; [done|].
      intros ->. apply Hnot. split; [|done]. congruence.
    + intros (conn' & Hc' & Hl' & Ho').
      apply lookup_insert_Some in Hc' as [[-> <-]|[Hne Hc']]; [done|].
      split; [by exists conn'|]. intros [_ ->]. done.
  - intros i c'. simpl. rewrite (Hex i c'), lookup_alter.
    destruct (decide (c = c')) as [<-|Hne]; [|done]. split.
    + intros (conn & Hc & Hl & Ho). exists (with_catching_up false conn).
      by rewrite Hc.
    + intros (conn' & Hc & Hl & Ho).
      destruct (connections s !! c) as [conn|]; [|done].
      simpl in Hc. injection Hc as <-. by exists conn.
  - intros i c. simpl. apply reconstruct_lookup.
Qed.

Lemma init_registry_exact priv es : registry_exact (init priv es).
Proof.
  intros i c. simpl. rewrite lookup_empty_registry, elem_of_empty.
  split; [done|]. intros (conn & Hc & _). by rewrite lookup_empty in Hc.
Qed.


Lemma begin_close_not_open c s conn :
  connections (begin_close c s) !! c = Some conn → liveness conn = OPEN →
  connections s !! c = None.
Proof.
  unfold begin_close. destruct (connections s !! c) as [conn0|] eqn:Hc; [|done].
  destruct (decide (liveness conn0 = OPEN)) as [Hopen|Hno]; simpl.
  - rewrite lookup_insert_eq. intros [= <-]. done.
  - rewrite Hc. intros [= <-]. done.
Qed.

Lemma disconnect_not_open c s conn :
  connections (disconnect c s) !! c = Some conn → liveness conn ≠ OPEN.
Proof.
  unfold disconnect. destruct (connections s !! c) as [conn0|] eqn:Hc; simpl.
  - rewrite lookup_insert_eq. intros [= <-]. done.
  - by rewrite Hc.
Qed.

(** C7. In every state the engine reaches, the registry holds for each
    identity exactly the OPEN connections of that identity, which is what
    the reconstruction from the live connections gives; a connection that
    starts to close or is disconnected is out of the registry in the very
    state the operation yields; and after a restart the registry is empty
    for every identity, while the store and the bus are as before. *)
Theorem presence_registry_holds_open_connections_only cfg priv es t :
  let s := run cfg t (init priv es) in
  registry_exact s ∧
  (∀ i, lookup (registry s) i = lookup (reconstruct (connections s)) i) ∧
  (∀ c i, (c ∉ lookup (registry (step cfg (BeginClose c) s)) i) ∧
          (c ∉ lookup (registry (step cfg (Disconnect c) s)) i)) ∧
  (∀ i, lookup (registry (step cfg Restart s)) i = ∅) ∧
  outbox (step cfg Restart s) = outbox s ∧
  bus (step cfg Restart s) = bus s.
Proof.
  intros s.
  assert (Hex : registry_exact s).
  { eapply moves_registry_exact; [apply run_moves | apply init_registry_exact]. }
  assert (Hstep : ∀ l, registry_exact (step cfg l s)).
  { intros l. eapply moves_registry_exact; [apply step_moves | exact Hex]. }
  split; [exact Hex|]. split; [|split; [|split; [|done]]].
  - intros i. apply set_eq. intros c. by rewrite (Hex i c), reconstruct_lookup.
  - intros c i. split.
    + intros Hin. apply (Hstep (BeginClose c)) in Hin as (conn & Hc & Hl & _).
      simpl in Hc. pose proof (begin_close_not_open c s conn Hc Hl) as Hnone.
      unfold begin_close in Hc. rewrite Hnone in Hc. congruence.
    + intros Hin. apply (Hstep (Disconnect c)) in Hin as (conn & Hc & Hl & _).
      simpl in Hc. by apply disconnect_not_open in Hc.
  - intros i. apply set_eq. intros c. rewrite elem_of_empty. split; [|done].
    intros Hin. apply (Hstep Restart) in Hin as (conn & Hc & Hl & _).
    simpl in Hc. rewrite lookup_fmap in Hc.
    destruct (connections s !! c); [|done]. simpl in Hc. injection Hc as <-. done.
Qed.

Lemma presence_registry_witness :
  elements (lookup (registry Scenario.delivered_to_B) Scenario.B) = [100] ∧
  lookup (registry (step Scenario.cfg Restart Scenario.delivered_to_B)) Scenario.B = ∅ ∧
  100 ∉ lookup (registry (step Scenario.cfg (Disconnect 100) Scenario.delivered_to_B))
          Scenario.B.
Proof.
  split; [vm_compute; reflexivity|].
  pose proof (presence_registry_holds_open_connections_only Scenario.cfg
                (fun i => if decide (i = Scenario.A) then PUBLIC else PUBLIC)
                {[ (Scenario.B, Scenario.A); (Scenario.C, Scenario.A) ]}
                [Publish Scenario.e1; Connect Scenario.B 100; CatchUp 100 Scenario.up;
                 Deliver Scenario.e1 Scenario.up])
    as (_ & _ & Hclose & Hrestart & _).
  split; [apply Hrestart | apply Hclose].
Defined.

(** *** The outbound logs *)

Lemma logs_grow_same s s' : connections s' = connections s → logs_grow s s'.
Proof. intros Hc c conn Hconn. exists conn. by rewrite Hc. Qed.

Lemma moves_logs_grow cfg s s' : moves cfg s s' → logs_grow s s'.
Proof.
  induction 1 as [ | s1 s2 s3 _ IH1 _ IH2 | s s' (_ & _ & Hc & _) | s r ev _
                 | s nid n cs _ _ | s nid n _ _ | s nid st
                 | s i c conn Hfresh _ _ _ | s c conn l Hc _ | s c | s ].
  - by apply logs_grow_same.
  - intros c conn Hc. destruct (IH1 c conn Hc) as (conn1 & Hc1 & Ho1 & Hp1).
    destruct (IH2 c conn1 Hc1) as (conn2 & Hc2 & Ho2 & Hp2).
    exists conn2. split; [done|]. split; [congruence | by etrans].
  - by apply logs_grow_same.
  - by apply logs_grow_same.
  - intros c conn Hc. simpl.
    destruct (send_frames_lookup nid cs (connections s) c) as (g & Hg & ->).
    exists (g conn). rewrite Hc. destruct (Hg conn) as (Ho & _ & Hp). done.
  - by apply logs_grow_same.
  - by apply logs_grow_same.
  - intros c' conn' Hc'. exists conn'. simpl.
    rewrite lookup_insert_ne; [done|]. intros ->. congruence.
  - intros c' conn' Hc'. simpl. destruct (decide (c = c')) as [<-|Hne].
    + exists (with_liveness l conn). rewrite lookup_insert_eq.
      assert (conn' = conn) as -> by congruence. done.
    + exists conn'. by rewrite lookup_insert_ne.
  - intros c' conn' Hc'. simpl. rewrite lookup_alter.
    destruct (decide (c = c')) as [<-|Hne].
    + exists (with_catching_up false conn'). by rewrite Hc'.
    + by exists conn'.
  - intros c conn Hc. simpl. exists (with_liveness CLOSED conn).
    by rewrite lookup_fmap, Hc.
Qed.

(** *** What a delivery attempt does *)

Lemma same_world_refl s : same_world s s.
Proof. by repeat split. Qed.

Lemma same_world_trans s1 s2 s3 : same_world s1 s2 → same_world s2 s3 → same_world s1 s3.
Proof.
  intros (H1 & H2 & H3 & H4 & H5) (G1 & G2 & G3 & G4 & G5).
  repeat split; congruence.
Qed.

Lemma canSee_same_world s s' actor r k :
  same_world s s' → canSee s' actor r k = canSee s actor r k.
Proof.
  intros (Hp & He & Ha & _). unfold canSee. rewrite Hp.
  assert (Hf : bool_decide (follows s' r actor) = bool_decide (follows s r actor)).
  { apply bool_decide_ext. unfold follows. by rewrite He. }
  assert (Hg : bool_decide (accepted_follows s' r actor)
               = bool_decide (accepted_follows s r actor)).
  { apply bool_decide_ext. unfold accepted_follows. by rewrite He, Ha. }
  destruct k; [| | |done]; destruct (privacy s actor); by rewrite ?Hf, ?Hg.
Qed.

Lemma visible_same_world s s' n : same_world s s' → visible s' n = visible s n.
Proof.
  intros Hw. unfold visible. destruct Hw as (Hp & He & Ha & Hb & Hc). rewrite Hb.
  destruct (find_event _ _); [|done].
  apply canSee_same_world. by repeat split.
Qed.

Lemma similar_refl s : similar s s.
Proof. split; [apply same_world_refl | by split]. Qed.

Lemma similar_trans s1 s2 s3 : similar s1 s2 → similar s2 s3 → similar s1 s3.
Proof.
  intros (Hw1 & Hr1 & Hy1) (Hw2 & Hr2 & Hy2). split; [by eapply same_world_trans|].
  split; [congruence|]. intros c. by rewrite Hy2, Hy1.
Qed.

Lemma filter_ext_in {X} (P Q : X → Prop) `{!∀ x, Decision (P x)} `{!∀ x, Decision (Q x)}
    (l : list X) :
  (∀ x, x ∈ l → P x ↔ Q x) → filter P l = filter Q l.
Proof.
  induction l as [|x l IH]; intros Hall; [done|].
  rewrite !filter_cons.
  assert (Hx : P x ↔ Q x) by (apply Hall, list_elem_of_here).
  rewrite IH by (intros y Hy; apply Hall; by apply list_elem_of_further).
  destruct (decide (P x)), (decide (Q x)); tauto.
Qed.

Lemma targets_similar s s' over n : similar s s' → targets s' over n = targets s over n.
Proof.
  intros (_ & Hr & Hy). unfold targets. destruct over; [done|]. rewrite Hr.
  apply filter_ext_in. intros c _. by rewrite Hy.
Qed.

Lemma attempted_similar cfg send over s s' n :
  similar s s' → attempted cfg send over s' n = attempted cfg send over s n.
Proof.
  intros Hs. unfold attempted.
  rewrite (targets_similar s s' over n Hs).
  destruct Hs as (Hw & _). rewrite (visible_same_world s s' n Hw).
  destruct Hw as (_ & _ & _ & _ & ->). done.
Qed.

Lemma sent_over_similar send over s s' c nid :
  similar s s' → outbox s' !! nid = outbox s !! nid →
  sent_over send over s' c nid ↔ sent_over send over s c nid.
Proof.
  intros Hs Ho. unfold sent_over. rewrite Ho.
  split; intros (n & Hn & Hp & Hv & Ht & Hsend); exists n;
    rewrite (targets_similar s s' over n Hs) in *;
    rewrite (visible_same_world s s' n (proj1 Hs)) in *; done.
Qed.

Lemma tried_similar s s' nid :
  similar s s' → outbox s' !! nid = outbox s !! nid → tried s' nid ↔ tried s nid.
Proof.
  intros Hs Ho. unfold tried. rewrite Ho.
  split; intros (n & Hn & Hp & Hv); exists n;
    rewrite (visible_same_world s s' n (proj1 Hs)) in *; done.
Qed.

Lemma add_frames_nil conn : add_frames [] conn = conn.
Proof. destruct conn. unfold add_frames. simpl. by rewrite app_nil_r. Qed.

Lemma add_frames_app a b conn : add_frames b (add_frames a conn) = add_frames (a ++ b) conn.
Proof. unfold add_frames. simpl. by rewrite app_assoc. Qed.

Lemma send_frames_lookup_exact nid cs (m : gmap nat Connection) c :
  NoDup cs →
  send_frames nid cs m !! c
  = (if decide (c ∈ cs) then add_frames [NotificationFrame nid] else id) <$> m !! c.
Proof.
  induction 1 as [|c0 cs Hnotin _ IH].
  - destruct (decide (c ∈ [])) as [Hin|_]; [by apply not_elem_of_nil in Hin|].
    unfold send_frames. simpl. by destruct (m !! c).
  - change (send_frames nid (c0 :: cs) m)
      with (alter (add_frame (NotificationFrame nid)) c0 (send_frames nid cs m)).
    rewrite lookup_alter. destruct (decide (c0 = c)) as [->|Hne]; rewrite IH.
    + destruct (decide (c ∈ cs)) as [|_]; [done|].
      destruct (decide (c ∈ c :: cs)) as [_|Hout];
        [|exfalso; apply Hout, list_elem_of_here].
      by destruct (m !! c).
    + destruct (decide (c ∈ cs)) as [Hin|Hout].
      * destruct (decide (c ∈ c0 :: cs)) as [_|Hout]; [done|].
        exfalso. by apply Hout, list_elem_of_further.
      * destruct (decide (c ∈ c0 :: cs)) as [Hin|_]; [|done].
        apply elem_of_cons in Hin as [?|?]; by subst.
Qed.

Lemma targets_NoDup s over n : NoDup (targets s over n).
Proof.
  unfold targets. destruct over; [apply NoDup_singleton|].
  apply NoDup_filter, NoDup_elements.
Qed.

Lemma update_lookup_at nid f s k :
  well_formed s →
  update_notification nid f (outbox s) !! k
  = if decide (k = nid) then f <$> outbox s !! k else outbox s !! k.
Proof.
  intros [_ Hids]. rewrite update_lookup.
  destruct (outbox s !! k) as [m|] eqn:Hk; simpl.
  - rewrite (Hids k m Hk). by destruct (decide (k = nid)).
  - by destruct (decide (k = nid)).
Qed.

(** The whole effect of one delivery attempt. *)
Lemma attempt_effect cfg send over nid s :
  well_formed s →
  (∀ k, outbox (attempt cfg send over nid s) !! k
        = if decide (k = nid) then attempted cfg send over s <$> outbox s !! k
          else outbox s !! k) ∧
  (∀ c, connections (attempt cfg send over nid s) !! c
        = (if decide (sent_over send over s c nid)
           then add_frames [NotificationFrame nid] else id) <$> connections s !! c) ∧
  attempts (attempt cfg send over nid s)
  = attempts s ++ (if decide (tried s nid) then [nid] else []) ∧
  registry (attempt cfg send over nid s) = registry s ∧
  next_id (attempt cfg send over nid s) = next_id s ∧
  same_world s (attempt cfg send over nid s).
Proof.
  intros Hwf. unfold attempt. rewrite (find_notification_lookup s nid Hwf).
  assert (Hidle : ∀ n, outbox s !! nid = n →
            (∀ m, n = Some m → attempted cfg send over s m = m) →
            (∀ m, n = Some m → ¬ (state m = PENDING ∧ visible s m = true)) →
            (∀ k, outbox s !! k
                  = if decide (k = nid) then attempted cfg send over s <$> outbox s !! k
                    else outbox s !! k) ∧
            (∀ c, connections s !! c
                  = (if decide (sent_over send over s c nid)
                     then add_frames [NotificationFrame nid] else id) <$> connections s !! c) ∧
            attempts s = attempts s ++ (if decide (tried s nid) then [nid] else []) ∧
            registry s = registry s ∧ next_id s = next_id s ∧ same_world s s).
  { intros n Hn Hsame Hnot. split; [|split; [|split; [|split; [done|split; [done|]]]]].
    - intros k. destruct (decide (k = nid)) as [->|]; [|done]. rewrite Hn.
      destruct n as [m|]; [|done]. simpl. by rewrite Hsame.
    - intros c. rewrite decide_False; [by rewrite option_fmap_id|].
      intros (m & Hm & Hp & Hv & _). apply (Hnot m); [congruence | done].
    - rewrite decide_False; [by rewrite app_nil_r|].
      intros (m & Hm & Hp & Hv). apply (Hnot m); [congruence | done].
    - apply same_world_refl. }
  destruct (outbox s !! nid) as [n|] eqn:Hn; [|by apply (Hidle None)].
  assert (Hid : notification_id n = nid) by (destruct Hwf as [_ Hids]; by apply Hids).
  destruct (decide (state n = PENDING)) as [Hp|Hnp].
  2:{ apply (Hidle (Some n)); [done | |].
      - intros m [= <-]. unfold attempted. by rewrite decide_False.
      - intros m [= <-] [? _]. done. }
  destruct (visible s n) eqn:Hv.
  2:{ apply (Hidle (Some n)); [done | |].
      - intros m [= <-]. unfold attempted. rewrite decide_True by done. by rewrite Hv.
      - intros m [= <-] [_ ?]. congruence. }
  assert (Hatt : ∀ f,
            f n = attempted cfg send over s n →
            ∀ k, update_notification nid f (outbox s) !! k
                 = if decide (k = nid) then attempted cfg send over s <$> outbox s !! k
                   else outbox s !! k).
  { intros f Hf k. rewrite (update_lookup_at nid f s k Hwf).
    destruct (decide (k = nid)) as [->|]; [|done]. rewrite Hn. simpl. by rewrite Hf. }
  assert (Htried : tried s nid) by (by exists n).
  assert (Hatt' : attempted cfg send over s n
                  = match filter (fun c => send c nid = true) (targets s over n) with
                    | [] => record_failure cfg (clock s) n
                    | _ :: _ => write_state DELIVERED n
                    end).
  { unfold attempted. rewrite decide_True, Hv, Hid by done. done. }
  assert (Hsent : ∀ c, sent_over send over s c nid
                       ↔ c ∈ filter (fun c => send c nid = true) (targets s over n)).
  { intros c. rewrite list_elem_of_filter. split.
    - intros (m & Hm & _ & _ & Ht & Hs). assert (m = n) as -> by congruence. done.
    - intros [Hs Ht]. by exists n. }
  destruct (filter (fun c => send c nid = true) (targets s over n)) as [|c0 cs] eqn:Hf;
    cbn [outbox connections attempts registry next_id
         set_outbox set_connections set_attempts].
  - split; [by apply Hatt|]. split; [|split; [by rewrite decide_True by done|]].
    + intros c. rewrite decide_False; [by rewrite option_fmap_id|].
      rewrite Hsent. apply not_elem_of_nil.
    + split; [done|]. split; [done|]. by repeat split.
  - split; [by apply Hatt|]. split; [|split; [by rewrite decide_True by done|]].
    + intros c. rewrite send_frames_lookup_exact.
      * destruct (decide (c ∈ c0 :: cs)) as [Hin|Hout].
        -- by rewrite decide_True by by apply Hsent.
        -- rewrite decide_False; [done|]. by rewrite Hsent.
      * rewrite <- Hf. apply NoDup_filter, targets_NoDup.
    + split; [done|]. split; [done|]. by repeat split.
Qed.

Lemma ready_after (conns conns' : gmap nat Connection) (c : nat)
    (g : Connection → Connection) :
  (∀ conn, catching_up (g conn) = catching_up conn) →
  conns' !! c = g <$> conns !! c →
  match conns' !! c with Some conn => negb (catching_up conn) | None => false end
  = match conns !! c with Some conn => negb (catching_up conn) | None => false end.
Proof. intros Hg ->. destruct (conns !! c); simpl; [by rewrite Hg | done]. Qed.

Lemma attempt_similar cfg send over nid s :
  well_formed s → similar s (attempt cfg send over nid s).
Proof.
  intros Hwf. destruct (attempt_effect cfg send over nid s Hwf)
    as (_ & Hc & _ & Hr & _ & Hw).
  split; [done|]. split; [done|]. intros c. unfold ready.
  eapply ready_after; [|apply Hc]. intros conn. by destruct (decide _).
Qed.

Lemma attempt_well_formed cfg send over nid s :
  well_formed s → well_formed (attempt cfg send over nid s).
Proof. apply moves_well_formed with (cfg := cfg), attempt_moves. Qed.

(** The whole effect of the delivery attempts for a list of distinct
    records, one after the other. *)
Lemma attempts_effect cfg send over : ∀ ids s,
  well_formed s → NoDup ids →
  well_formed (foldl (fun acc nid => attempt cfg send over nid acc) s ids) ∧
  similar s (foldl (fun acc nid => attempt cfg send over nid acc) s ids) ∧
  (∀ k, outbox (foldl (fun acc nid => attempt cfg send over nid acc) s ids) !! k
        = if decide (k ∈ ids) then attempted cfg send over s <$> outbox s !! k
          else outbox s !! k) ∧
  (∀ c, connections (foldl (fun acc nid => attempt cfg send over nid acc) s ids) !! c
        = add_frames (NotificationFrame <$> filter (sent_over send over s c) ids)
            <$> connections s !! c) ∧
  attempts (foldl (fun acc nid => attempt cfg send over nid acc) s ids)
  = attempts s ++ filter (tried s) ids.
Proof.
  induction ids as [|nid ids IH]; intros s Hwf Hnd; cbn [foldl].
  - split; [done|]. split; [apply similar_refl|]. split; [|split].
    + intros k. destruct (decide (k ∈ [])) as [Hin|_]; [|done].
      by apply not_elem_of_nil in Hin.
    + intros c. rewrite filter_nil. cbn [fmap list_fmap].
      destruct (connections s !! c); simpl; [by rewrite add_frames_nil | done].
    + by rewrite filter_nil, app_nil_r.
  - apply NoDup_cons in Hnd as [Hnotin Hnd].
    set (s1 := attempt cfg send over nid s).
    assert (Hwf1 : well_formed s1) by by apply attempt_well_formed.
    assert (Hsim : similar s s1) by by apply attempt_similar.
    destruct (attempt_effect cfg send over nid s Hwf) as (Ho1 & Hc1 & Ha1 & _).
    fold s1 in Ho1, Hc1, Ha1.
    destruct (IH s1 Hwf1 Hnd) as (Hwf' & Hsim' & Ho & Hc & Ha).
    assert (Hrest : ∀ x, x ∈ ids → outbox s1 !! x = outbox s !! x).
    { intros x Hx. rewrite Ho1. rewrite decide_False; [done|]. by intros ->. }
    split; [done|]. split; [by eapply similar_trans|]. split; [|split].
    + intros k. rewrite Ho. destruct (decide (k ∈ ids)) as [Hin|Hout].
      * rewrite decide_True by by apply list_elem_of_further.
        rewrite (Hrest k Hin). apply option_fmap_ext. intros n.
        by apply attempted_similar.
      * rewrite Ho1. destruct (decide (k = nid)) as [->|Hne].
        -- by rewrite decide_True by apply list_elem_of_here.
        -- rewrite decide_False; [done|]. rewrite elem_of_cons. tauto.
    + intros c. rewrite Hc, Hc1.
      rewrite (filter_ext_in (sent_over send over s1 c) (sent_over send over s c) ids)
        by (intros x Hx; apply sent_over_similar; [done | by apply Hrest]).
      rewrite filter_cons.
      destruct (decide (sent_over send over s c nid)); destruct (connections s !! c);
        simpl; try done; by rewrite add_frames_app.
    + rewrite Ha, Ha1.
      rewrite (filter_ext_in (tried s1) (tried s) ids)
        by (intros x Hx; apply tried_similar; [done | by apply Hrest]).
      rewrite filter_cons. destruct (decide (tried s nid)); simpl.
      * by rewrite <- app_assoc.
      * by rewrite app_nil_r.
Qed.

(** *** C1: which records the processing of an event creates *)

Lemma attempt_keys_world cfg send over nid s :
  same_world s (attempt cfg send over nid s) ∧
  notification_key <$> outbox (attempt cfg send over nid s) = notification_key <$> outbox s.
Proof.
  unfold attempt. destruct (find_notification _ _); [|by split; [apply same_world_refl|]].
  destruct (decide _); [|by split; [apply same_world_refl|]].
  destruct (visible _ _); [|by split; [apply same_world_refl|]].
  destruct (filter _ _); simpl; rewrite update_keys by auto with engine;
    by split; [repeat split|].
Qed.

Lemma deliver_candidate_world cfg send e s r :
  same_world s (deliver_candidate cfg send e s r).
Proof.
  unfold deliver_candidate. destruct (canSee _ _ _ _); [|apply same_world_refl].
  destruct (has_notification _ _ _); [apply same_world_refl|].
  eapply same_world_trans;
    [|apply (attempt_keys_world cfg send None (next_id s) (create r (event_id e) s))].
  by repeat split.
Qed.




Lemma elem_of_followers s actor r : r ∈ followers s actor ↔ follows s r actor.
Proof.
  unfold followers, follows. rewrite elem_of_map. split.
  - intros ([f a] & -> & Hin). apply elem_of_filter in Hin as [Ha Hin].
    simpl in *. by subst.
  - intros Hin. exists (r, actor). split; [done|]. by apply elem_of_filter.
Qed.





(** The ids of the records of a well-formed store are in ascending order. *)
Lemma filter_ids_sorted (P : Notification → Prop) `{!∀ n, Decision (P n)} ns : ∀ off,
  (∀ k n, ns !! k = Some n → notification_id n = off + k) →
  StronglySorted lt (notification_id <$> filter P ns) ∧
  Forall (fun x => off ≤ x) (notification_id <$> filter P ns).
Proof.
  induction ns as [|m ns IH]; intros off Hids.
  - split; constructor.
  - destruct (IH (S off)) as [Hs Hf].
    { intros k n Hk. rewrite (Hids (S k) n Hk). lia. }
    pose proof (Hids 0 m eq_refl) as Hm. rewrite Nat.add_0_r in Hm.
    rewrite filter_cons. destruct (decide (P m)); simpl.
    + split.
      * apply StronglySorted_cons. split; [|done].
        eapply Forall_impl; [exact Hf|]. simpl. intros x Hx. lia.
      * constructor; [lia|]. eapply Forall_impl; [exact Hf|]. simpl. intros x Hx. lia.
    + split; [done|]. eapply Forall_impl; [exact Hf|]. simpl. intros x Hx. lia.
Qed.

Lemma strictly_sorted_NoDup (l : list nat) : StronglySorted lt l → NoDup l.
Proof.
  induction 1 as [|x l _ IH Hall]; constructor; [|done].
  intros Hin. rewrite Forall_forall in Hall. specialize (Hall x Hin). lia.
Qed.

Lemma filter_ids_NoDup (P : Notification → Prop) `{!∀ n, Decision (P n)} s :
  well_formed s → NoDup (notification_id <$> filter P (outbox s)).
Proof.
  intros [_ Hids]. apply strictly_sorted_NoDup.
  by apply (filter_ids_sorted P (outbox s) 0).
Qed.

Lemma catch_up_fetch_Permutation i s :
  catch_up_fetch i s ≡ₚ filter (fun n => recipient_id n = i ∧ state n = PENDING) (outbox s).
Proof. unfold catch_up_fetch. apply merge_sort_Permutation. Qed.

Lemma catch_up_fetch_elem i s n :
  n ∈ catch_up_fetch i s ↔ n ∈ outbox s ∧ recipient_id n = i ∧ state n = PENDING.
Proof. rewrite catch_up_fetch_Permutation, list_elem_of_filter. tauto. Qed.

Lemma catch_up_fetch_NoDup i s :
  well_formed s → NoDup (notification_id <$> catch_up_fetch i s).
Proof.
  intros Hwf. rewrite catch_up_fetch_Permutation. by apply filter_ids_NoDup.
Qed.

Lemma count_snoc (l : list nat) nid k :
  length (filter (fun x => x = k) (l ++ [nid]))
  = length (filter (fun x => x = k) l) + (if decide (nid = k) then 1 else 0).
Proof.
  rewrite filter_app, length_app. f_equal.
  rewrite filter_cons. by destruct (decide (nid = k)).
Qed.



Lemma publish_same_engine e s : same_engine s (publish e s).
Proof. unfold publish. by destruct (find_event _ _). Qed.




Example e1_notifies_B_and_C :
  notification_key <$> outbox
    (run Scenario.cfg [Publish Scenario.e1; Deliver Scenario.e1 Scenario.up]
       (Scenario.world PUBLIC))
  = [(Scenario.B, 1); (Scenario.C, 1)].
Proof. vm_compute. reflexivity. Qed.

(** B and C are online and ack: the two records of e1 end up ACKED. *)
Example e1_is_acked_by_B_and_C :
  (fun n => (recipient_id n, state n)) <$> outbox
    (run Scenario.cfg [Connect Scenario.B 100; CatchUp 100 Scenario.up;
                       Connect Scenario.C 101; CatchUp 101 Scenario.up;
                       Publish Scenario.e1; Deliver Scenario.e1 Scenario.up;
                       Ack 100 0; Ack 101 1]
       (Scenario.world PUBLIC))
  = [(Scenario.B, ACKED); (Scenario.C, ACKED)].
Proof. vm_compute. reflexivity. Qed.

Example e2_of_private_actor_notifies_B_only :
  notification_key <$> outbox
    (run Scenario.cfg [Follow Scenario.C Scenario.D; Unfollow Scenario.C Scenario.A;
                       Publish Scenario.e2; Deliver Scenario.e2 Scenario.up]
       (Scenario.world PRIVATE))
  = [(Scenario.B, 2)] ∧
  canSee (Scenario.world PRIVATE) Scenario.A Scenario.D COMMENT = false.
Proof. split; vm_compute; reflexivity. Qed.

(** A FOLLOW event reaches the followee whatever the privacy of the actor. *)
Example follow_event_of_private_actor_reaches_followee :
  notification_key <$> outbox
    (run Scenario.cfg [Publish Scenario.e4; SetPrivacy Scenario.A PRIVATE;
                       Deliver Scenario.e4 Scenario.up]
       (Scenario.world PUBLIC))
  = [(Scenario.D, 4)].
Proof. vm_compute. reflexivity. Qed.

(** D has a FollowEdge to A that is not accepted.  While A is PUBLIC, D is
    notified of e1 like B and C; when A turns PRIVATE between publish and
    delivery, D is not. *)
Example privacy_flip_suppresses_D :
  notification_key <$> outbox
    (run Scenario.cfg [Publish Scenario.e1; Deliver Scenario.e1 Scenario.up]
       Scenario.D_asks)
  = [(Scenario.D, 1); (Scenario.B, 1); (Scenario.C, 1)] ∧
  notification_key <$> outbox
    (run Scenario.cfg [Publish Scenario.e1; SetPrivacy Scenario.A PRIVATE;
                       Deliver Scenario.e1 Scenario.up]
       Scenario.D_asks)
  = [(Scenario.B, 1); (Scenario.C, 1)].
Proof. split; vm_compute; reflexivity. Qed.

(** B is offline when e1 is delivered and unfollows A before the retry: the
    retry makes no attempt for B, and none when B connects and catches up,
    while C is served. *)
Example unfollow_before_retry_suppresses_B :
  (fun n => (recipient_id n, state n, attempt_count n)) <$> outbox
    (run Scenario.cfg [Publish Scenario.e1; Deliver Scenario.e1 Scenario.down;
                       Unfollow Scenario.B Scenario.A; SetPrivacy Scenario.A PRIVATE;
                       Connect Scenario.B 100; Connect Scenario.C 101;
                       CatchUp 100 Scenario.up; CatchUp 101 Scenario.up;
                       Tick 100; RetrySweep Scenario.up]
       (Scenario.world PUBLIC))
  = [(Scenario.B, PENDING, 1); (Scenario.C, DELIVERED, 1)].
Proof. vm_compute. reflexivity. Qed.



(** *** C3: the delivery state of a record *)


















(** An unacknowledged DELIVERED record stays DELIVERED at the ack timeout
    and is EXPIRED past the retention horizon, after which an ack changes
    nothing; a PENDING record is not written ACKED, nor an ACKED one
    DELIVERED. *)
Example unacknowledged_record_stays_delivered :
  state <$> outbox (step Scenario.cfg (AckTimeout 0) Scenario.delivered_to_B)
  = [DELIVERED; PENDING] ∧
  state <$> outbox (run Scenario.cfg [AckTimeout 0; RetentionExpire 0; Ack 100 0]
                      Scenario.delivered_to_B)
  = [EXPIRED; PENDING] ∧
  state <$> outbox (run Scenario.cfg [StoreWrite 1 ACKED; Ack 100 0; StoreWrite 0 DELIVERED]
                      Scenario.delivered_to_B)
  = [ACKED; PENDING].
Proof. split; [|split]; vm_compute; reflexivity. Qed.



(** *** C5: catch-up replay *)

Lemma replay_before_total s : Total (replay_before s).
Proof. intros n m. unfold replay_before. lia. Qed.

Lemma replay_before_trans s : Transitive (replay_before s).
Proof. intros a b c. unfold replay_before. lia. Qed.

Lemma catch_up_fetch_sorted i s : StronglySorted (replay_before s) (catch_up_fetch i s).
Proof.
  unfold catch_up_fetch.
  apply (@StronglySorted_merge_sort _ (replay_before s) _
           (replay_before_trans s) (replay_before_total s)).
Qed.

Lemma StronglySorted_impl {X} (R1 R2 : X → X → Prop) (l : list X) :
  (∀ x y, x ∈ l → y ∈ l → x ≠ y → R1 x y → R2 x y) → NoDup l →
  StronglySorted R1 l → StronglySorted R2 l.
Proof.
  intros Himp Hnd Hs. induction Hs as [|x l Hs IH Hall]; [constructor|].
  apply NoDup_cons in Hnd as [Hx Hnd]. constructor.
  - apply IH; [|done]. intros a b Ha Hb. apply Himp; by apply list_elem_of_further.
  - rewrite Forall_forall in *. intros y Hy. apply Himp.
    + apply list_elem_of_here.
    + by apply list_elem_of_further.
    + by intros ->.
    + by apply Hall.
Qed.

Lemma catch_up_fetch_records_NoDup i s : well_formed s → NoDup (catch_up_fetch i s).
Proof. intros Hwf. eapply NoDup_fmap_1, catch_up_fetch_NoDup, Hwf. Qed.

Lemma filter_nothing {X} (P : X → Prop) `{!∀ x, Decision (P x)} (l : list X) :
  (∀ x, x ∈ l → ¬ P x) → filter P l = [].
Proof.
  induction l as [|x l IH]; intros Hall; [done|]. rewrite filter_cons.
  destruct (decide (P x)) as [Hp|_].
  - exfalso. by apply (Hall x), Hp; apply list_elem_of_here.
  - apply IH. intros y Hy. by apply Hall, list_elem_of_further.
Qed.

(** A delivery attempt sends nothing over a connection that is still
    catching up, the one under replay apart. *)
Lemma attempt_quiet cfg send over nid s :
  well_formed s → quiet_but over s → quiet_but over (attempt cfg send over nid s).
Proof.
  intros Hwf Hq c conn' Hne.
  destruct (attempt_effect cfg send over nid s Hwf) as (_ & -> & _).
  destruct (connections s !! c) as [conn|] eqn:Hc; [|done].
  destruct (decide (sent_over send over s c nid)) as [Hsent|_]; simpl.
  - intros [= <-] Hcu. simpl in Hcu. exfalso.
    destruct Hsent as (n & _ & _ & _ & Ht & _). unfold targets in Ht.
    destruct over as [c0|].
    + apply list_elem_of_singleton in Ht. congruence.
    + apply list_elem_of_filter in Ht as [Hready _]. unfold ready in Hready.
      rewrite Hc, Hcu in Hready. done.
  - intros [= <-] Hcu. by apply (Hq c conn).
Qed.

Lemma attempts_quiet cfg send over ids : ∀ s,
  well_formed s → quiet_but over s →
  quiet_but over (foldl (fun acc nid => attempt cfg send over nid acc) s ids).
Proof.
  induction ids as [|nid ids IH]; intros s Hwf Hq; simpl; [done|].
  apply IH; [by apply attempt_well_formed | by apply attempt_quiet].
Qed.

Lemma quiet_same s s' x : connections s' = connections s → quiet_but x s → quiet_but x s'.
Proof. intros Hc Hq c conn. rewrite Hc. apply Hq. Qed.

Lemma deliver_candidate_quiet cfg send e s r :
  well_formed s → quiet s → quiet (deliver_candidate cfg send e s r).
Proof.
  intros Hwf Hq. unfold deliver_candidate.
  destruct (canSee _ _ _ _); [|done]. destruct (has_notification _ _ _); [done|].
  apply attempt_quiet; [by apply well_formed_create|].
  by apply (quiet_same s).
Qed.

Lemma process_quiet cfg send e s : well_formed s → quiet s → quiet (process cfg send e s).
Proof.
  unfold process. generalize (candidates s e). intros rs. revert s.
  induction rs as [|r rs IH]; intros s Hwf Hq; simpl; [done|].
  apply IH; [|by apply deliver_candidate_quiet].
  eapply moves_well_formed; [apply (deliver_candidate_moves cfg) | done].
Qed.

Lemma step_quiet cfg l s : well_formed s → quiet s → quiet (step cfg l s).
Proof.
  intros Hwf Hq. destruct l; simpl.
  - apply (quiet_same s); [|done]. by destruct (publish_same_engine e s) as (_ & _ & -> & _).
  - destruct (decide _); [by apply process_quiet | done].
  - by apply (quiet_same s).
  - by apply (quiet_same s).
  - by apply (quiet_same s).
  - by apply (quiet_same s).
  - unfold connect. destruct (connections s !! c) eqn:Hc; [done|].
    intros c' conn' _. simpl. rewrite lookup_insert.
    destruct (decide (c = c')) as [<-|Hne]; [by intros [= <-]|].
    by apply Hq.
  - unfold catch_up. destruct (connections s !! c) as [conn|] eqn:Hc; [|done].
    destruct (decide _); [|done].
    intros c' conn' _. simpl. rewrite lookup_alter.
    pose proof (attempts_quiet cfg send (Some c)
                  (notification_id <$> catch_up_fetch (owner conn) s) s Hwf) as Hq'.
    destruct (decide (c = c')) as [<-|Hne].
    + intros Hconn' Hcu.
      apply fmap_Some in Hconn' as (conn1 & _ & ->). done.
    + apply Hq'; [|congruence]. intros c0 conn0 _. by apply Hq.
  - unfold begin_close. destruct (connections s !! c) as [conn|] eqn:Hc; [|done].
    destruct (decide _); [|done].
    intros c' conn' _. simpl. rewrite lookup_insert.
    destruct (decide (c = c')) as [<-|Hne]; [|by apply Hq].
    intros [= <-]. simpl. by apply (Hq c conn).
  - unfold disconnect. destruct (connections s !! c) as [conn|] eqn:Hc; [|done].
    intros c' conn' _. simpl. rewrite lookup_insert.
    destruct (decide (c = c')) as [<-|Hne]; [|by apply Hq].
    intros [= <-]. simpl. by apply (Hq c conn).
  - apply (quiet_same s); [|done]. unfold ack.
    destruct (connections s !! c); [|done]. destruct (find_notification _ _); [|done].
    by destruct (decide _).
  - by apply (quiet_same s).
  - unfold retry_sweep. by apply attempts_quiet.
  - by apply (quiet_same s).
  - by apply (quiet_same s).
  - by apply (quiet_same s).
  - intros c conn' _. simpl. rewrite lookup_fmap.
    destruct (connections s !! c) as [conn|] eqn:Hc; [|done].
    simpl. intros [= <-]. simpl. by apply (Hq c conn).
Qed.

Lemma run_quiet cfg t : ∀ s, well_formed s → quiet s → quiet (run cfg t s).
Proof.
  induction t as [|l t IH]; intros s Hwf Hq; [done|].
  apply IH; [|by apply step_quiet].
  eapply moves_well_formed; [apply (step_moves cfg) | done].
Qed.

Lemma reachable_quiet cfg priv es t : quiet (run cfg t (init priv es)).
Proof.
  apply run_quiet; [apply init_well_formed|].
  intros c conn _ Hc. simpl in Hc. by rewrite lookup_empty in Hc.
Qed.

Lemma filter_fmap_in {X Y} (f : X → Y) (P : Y → Prop) `{!∀ y, Decision (P y)}
    (Q : X → Prop) `{!∀ x, Decision (Q x)} (l : list X) :
  (∀ x, x ∈ l → P (f x) ↔ Q x) → filter P (f <$> l) = f <$> filter Q l.
Proof.
  induction l as [|x l IH]; intros Hall; [done|].
  rewrite fmap_cons, !filter_cons.
  assert (Hx : P (f x) ↔ Q x) by apply Hall, list_elem_of_here.
  rewrite IH by (intros y Hy; by apply Hall, list_elem_of_further).
  destruct (decide (P (f x))), (decide (Q x)); try tauto; done.
Qed.

(** *** The events of the records *)

Lemma find_event_None ev b : find_event ev b = None ↔ ev ∉ event_id <$> b.
Proof.
  unfold find_event. induction b as [|e b IH]; simpl.
  - split; [intros _; apply not_elem_of_nil | done].
  - rewrite not_elem_of_cons. destruct (Nat.eqb_spec (event_id e) ev) as [Heq|Hne].
    + split; [done|]. intros [Hne _]. congruence.
    + rewrite IH. split; [intros ?; split; [congruence | done] | tauto].
Qed.

Lemma find_event_unique e b :
  NoDup (event_id <$> b) → e ∈ b → find_event (event_id e) b = Some e.
Proof.
  unfold find_event. induction b as [|e0 b IH]; intros Hnd Hin.
  - by apply not_elem_of_nil in Hin.
  - rewrite fmap_cons in Hnd. apply NoDup_cons in Hnd as [Hnotin Hnd]. simpl.
    apply elem_of_cons in Hin as [->|Hin]; [by rewrite Nat.eqb_refl|].
    destruct (Nat.eqb_spec (event_id e0) (event_id e)) as [Heq|_]; [|by apply IH].
    exfalso. apply Hnotin. rewrite Heq. apply list_elem_of_fmap. by exists e.
Qed.

Lemma events_known_same s s' :
  bus s' = bus s → notification_key <$> outbox s' = notification_key <$> outbox s →
  events_known s → events_known s'.
Proof. intros Hb Hk. unfold events_known. by rewrite Hb, Hk. Qed.

Lemma attempts_keys_world cfg send over ids : ∀ s,
  same_world s (foldl (fun acc nid => attempt cfg send over nid acc) s ids) ∧
  notification_key <$> outbox (foldl (fun acc nid => attempt cfg send over nid acc) s ids)
  = notification_key <$> outbox s.
Proof.
  induction ids as [|nid ids IH]; intros s; simpl; [by split; [apply same_world_refl|]|].
  destruct (IH (attempt cfg send over nid s)) as [Hw Hk].
  destruct (attempt_keys_world cfg send over nid s) as [Hw1 Hk1].
  split; [by eapply same_world_trans | congruence].
Qed.

Lemma deliver_candidate_events_known cfg send e s r :
  e ∈ bus s → events_known s → events_known (deliver_candidate cfg send e s r).
Proof.
  intros He [Hnd Hall]. unfold deliver_candidate.
  destruct (canSee _ _ _ _); [|done]. destruct (has_notification _ _ _); [done|].
  unfold push.
  destruct (attempt_keys_world cfg send None (next_id s) (create r (event_id e) s))
    as ((_ & _ & _ & Hb & _) & Hk).
  unfold events_known. rewrite Hb, Hk. simpl. split; [done|].
  rewrite fmap_app. apply Forall_app. split; [done|].
  constructor; [|done]. simpl. apply list_elem_of_fmap. by exists e.
Qed.

Lemma process_events_known cfg send e s :
  e ∈ bus s → events_known s → events_known (process cfg send e s).
Proof.
  unfold process. generalize (candidates s e). intros rs. revert s.
  induction rs as [|r rs IH]; intros s He Hk; simpl; [done|].
  apply IH; [|by apply deliver_candidate_events_known].
  by destruct (deliver_candidate_world cfg send e s r) as (_ & _ & _ & -> & _).
Qed.

Lemma step_events_known cfg l s : events_known s → events_known (step cfg l s).
Proof.
  intros Hk.
  assert (Hwrite : ∀ nid f, stable f →
            events_known (set_outbox (update_notification nid f) s)).
  { intros nid f Hf. apply (events_known_same s); [done | | done].
    simpl. by apply update_keys. }
  destruct l; simpl; try (by apply (events_known_same s)).
  - unfold publish. destruct (find_event (event_id e) (bus s)) eqn:Hfind; [done|].
    apply find_event_None in Hfind. destruct Hk as [Hnd Hall].
    unfold events_known. simpl. rewrite fmap_app. split.
    + apply NoDup_app. split; [done|]. split; [|apply NoDup_singleton].
      intros x Hx Hin. apply list_elem_of_singleton in Hin as ->. done.
    + eapply Forall_impl; [exact Hall|]. simpl. intros key Hin.
      apply elem_of_app. by left.
  - destruct (decide _); [by apply process_events_known | done].
  - apply (events_known_same s); [|unfold connect; by destruct (connections s !! c)|done].
    unfold connect. by destruct (connections s !! c).
  - unfold catch_up. destruct (connections s !! c) as [conn|]; [|done].
    destruct (decide _); [|done].
    destruct (attempts_keys_world cfg send (Some c)
                (notification_id <$> catch_up_fetch (owner conn) s) s)
      as ((_ & _ & _ & Hb & _) & Hkeys).
    by apply (events_known_same s).
  - unfold begin_close. destruct (connections s !! c); [|done]. by destruct (decide _).
  - unfold disconnect. by destruct (connections s !! c).
  - unfold ack. destruct (connections s !! c); [|done].
    destruct (find_notification _ _); [|done]. destruct (decide _); [|done].
    apply Hwrite, stable_write_state.
  - apply Hwrite, stable_write_state.
  - unfold retry_sweep.
    destruct (attempts_keys_world cfg send None
                (notification_id <$>
                   filter (fun n => state n = PENDING ∧ next_retry_at n ≤ clock s)
                     (outbox s)) s)
      as ((_ & _ & _ & Hb & _) & Hkeys).
    by apply (events_known_same s).
  - apply Hwrite, stable_write_state.
  - apply Hwrite, stable_write_state.
Qed.

Lemma reachable_events_known cfg priv es t : events_known (run cfg t (init priv es)).
Proof.
  assert (H : ∀ s, events_known s → events_known (run cfg t s)).
  { induction t as [|l t IH]; intros s Hk; [done|]. apply IH. by apply step_events_known. }
  apply H. split; [apply NoDup_nil_2 | constructor].
Qed.

(** In the states the engine reaches, the creation time of a record is that
    of the one event of the log the record is about. *)
Lemma created_of_event s n :
  events_known s → n ∈ outbox s →
  ∃ e, e ∈ bus s ∧ event_id e = notified_event n ∧
       find_event (notified_event n) (bus s) = Some e ∧
       created_of s n = created_at e.
Proof.
  intros [Hnd Hall] Hin. rewrite Forall_forall in Hall.
  assert (Hev : notified_event n ∈ event_id <$> bus s).
  { apply (Hall (notification_key n)). apply list_elem_of_fmap. by exists n. }
  apply list_elem_of_fmap in Hev as (e & Heq & He).
  exists e. split; [done|]. split; [done|].
  assert (Hfind : find_event (notified_event n) (bus s) = Some e)
    by (rewrite Heq; by apply find_event_unique).
  split; [done|]. unfold created_of. by rewrite Hfind.
Qed.

(** The frames a replay sends over the connection under catch-up. *)
Lemma replay_frames cfg send c i s conn :
  well_formed s → connections s !! c = Some conn →
  connections (foldl (replay_one cfg send c) s (notification_id <$> catch_up_fetch i s)) !! c
  = Some (add_frames
            (NotificationFrame <$>
               (notification_id <$>
                  filter (fun n => visible s n = true ∧ send c (notification_id n) = true)
                    (catch_up_fetch i s)))
            conn).
Proof.
  intros Hwf Hc.
  destruct (attempts_effect cfg send (Some c) (notification_id <$> catch_up_fetch i s) s Hwf)
    as (_ & _ & _ & Hconn & _); [by apply catch_up_fetch_NoDup|].
  unfold replay_one. rewrite Hconn, Hc. simpl. do 3 f_equal.
  apply filter_fmap_in. intros n Hn.
  apply catch_up_fetch_elem in Hn as (Hin & _ & Hp).
  apply list_elem_of_lookup in Hin as (k & Hk).
  assert (Hid : notification_id n = k) by (destruct Hwf as [_ Hids]; by apply Hids).
  unfold sent_over. rewrite Hid, Hk. split.
  - intros (m & [= <-] & _ & Hv & _ & Hs). done.
  - intros [Hv Hs]. exists n. repeat split; try done. apply list_elem_of_here.
Qed.

(** B is offline when e3 and then e1 are delivered.  B connects, e2 is
    delivered before the catch-up of the connection is done, and e5 after
    it: the replay sends e1, e2 and e3 in the order of their creation, and
    the live push of e5 comes last. *)
Example replay_comes_first_and_in_creation_order :
  (fun n => (notification_id n, notified_event n)) <$>
    catch_up_fetch Scenario.B
      (run Scenario.cfg [Publish Scenario.e2; Deliver Scenario.e2 Scenario.up]
         Scenario.B_back)
  = [(2, 1); (4, 2); (0, 3)] ∧
  outbound <$> connections
    (run Scenario.cfg [Publish Scenario.e2; Deliver Scenario.e2 Scenario.up]
       Scenario.B_back) !! 100
  = Some [] ∧
  outbound <$> connections
    (run Scenario.cfg [Publish Scenario.e2; Deliver Scenario.e2 Scenario.up;
                       CatchUp 100 Scenario.up;
                       Publish Scenario.e5; Deliver Scenario.e5 Scenario.up]
       Scenario.B_back) !! 100
  = Some [NotificationFrame 2; NotificationFrame 4; NotificationFrame 0;
          NotificationFrame 6].
Proof. split; [|split]; vm_compute; reflexivity. Qed.

(** C5. In every state the engine reaches, for a connection that is still
    to catch up: the catch-up fetch yields exactly the PENDING records of
    the owner, each with the creation time of the event of the log it is
    about, in the ascending order of these times (by notification id among
    events of one time, and strictly ascending when the times are pairwise
    distinct); nothing has been sent over the connection so far, whatever
    was delivered since its admission; the catch-up sends the records that
    are visible and whose send is confirmed over the connection in that
    order; and whatever the engine sends over the connection later, for
    newly published events too, comes after them. *)
Theorem catch_up_replays_in_creation_order_before_live_push cfg priv es t c conn send :
  let s := run cfg t (init priv es) in
  let pending := catch_up_fetch (owner conn) s in
  let replayed :=
    NotificationFrame <$>
      (notification_id <$>
         filter (fun n => visible s n = true ∧ send c (notification_id n) = true) pending) in
  connections s !! c = Some conn → liveness conn = OPEN → catching_up conn = true →
  (∀ n, n ∈ pending ↔ n ∈ outbox s ∧ recipient_id n = owner conn ∧ state n = PENDING) ∧
  (∀ n, n ∈ pending →
     ∃ e, e ∈ bus s ∧ event_id e = notified_event n ∧ created_of s n = created_at e) ∧
  StronglySorted (replay_before s) pending ∧
  StronglySorted (fun n m => created_of s n ≤ created_of s m) pending ∧
  (NoDup (created_of s <$> pending) →
   StronglySorted (fun n m => created_of s n < created_of s m) pending) ∧
  outbound conn = [] ∧
  (∃ conn', connections (step cfg (CatchUp c send) s) !! c = Some conn' ∧
            owner conn' = owner conn ∧ catching_up conn' = false ∧
            outbound conn' = replayed) ∧
  ∀ t', ∃ conn' later,
    connections (run cfg t' (step cfg (CatchUp c send) s)) !! c = Some conn' ∧
    outbound conn' = replayed ++ later.
Proof.
  intros s pending replayed Hc Hopen Hcu.
  assert (Hwf : well_formed s) by apply reachable_well_formed.
  assert (Hsorted : StronglySorted (replay_before s) pending)
    by apply catch_up_fetch_sorted.
  assert (Hnd : NoDup pending) by by apply catch_up_fetch_records_NoDup.
  assert (Hquiet : outbound conn = []).
  { by apply (reachable_quiet cfg priv es t c conn). }
  split; [intros n; apply catch_up_fetch_elem|].
  split.
  { intros n Hn. apply catch_up_fetch_elem in Hn as (Hin & _).
    destruct (created_of_event s n (reachable_events_known cfg priv es t) Hin)
      as (e & ? & ? & _ & ?).
    by exists e. }
  split; [done|].
  split; [|split; [|split; [done|]]].
  - eapply StronglySorted_impl; [|exact Hnd|exact Hsorted].
    intros x y _ _ _. unfold replay_before. lia.
  - intros Htimes. eapply StronglySorted_impl; [|exact Hnd|exact Hsorted].
    intros x y Hx Hy Hne [Hlt|[Heq _]]; [done|]. exfalso. apply Hne.
    apply list_elem_of_lookup in Hx as (kx & Hkx).
    apply list_elem_of_lookup in Hy as (ky & Hky).
    assert (kx = ky).
    { eapply NoDup_lookup; [exact Htimes | |].
      - rewrite list_lookup_fmap, Hkx. reflexivity.
      - rewrite list_lookup_fmap, Hky. simpl. by rewrite Heq. }
    subst. congruence.
  - assert (Hcatch : ∃ conn', connections (step cfg (CatchUp c send) s) !! c = Some conn' ∧
                              owner conn' = owner conn ∧ catching_up conn' = false ∧
                              outbound conn' = replayed).
    { simpl. unfold catch_up. rewrite Hc. rewrite decide_True by done. simpl.
      rewrite lookup_alter_eq, (replay_frames cfg send c (owner conn) s conn Hwf Hc).
      simpl. eexists. split; [done|]. simpl. by rewrite Hquiet. }
    split; [exact Hcatch|]. intros t'.
    destruct Hcatch as (conn1 & Hc1 & _ & _ & Ho1).
    destruct (moves_logs_grow cfg _ _ (run_moves cfg t' (step cfg (CatchUp c send) s))
                c conn1 Hc1) as (conn' & Hc' & _ & later & Hlater).
    exists conn', later. split; [done|]. by rewrite Hlater, Ho1.
Qed.

Lemma catch_up_witness :
  StronglySorted
    (fun n m => created_of Scenario.B_back n < created_of Scenario.B_back m)
    (catch_up_fetch Scenario.B Scenario.B_back) ∧
  (∃ conn', connections (step Scenario.cfg (CatchUp 100 Scenario.up) Scenario.B_back) !! 100
            = Some conn' ∧
            owner conn' = Scenario.B ∧ catching_up conn' = false ∧
            outbound conn' = [NotificationFrame 2; NotificationFrame 0]) ∧
  ∃ conn' later,
    connections (run Scenario.cfg [Publish Scenario.e5; Deliver Scenario.e5 Scenario.up]
                   (step Scenario.cfg (CatchUp 100 Scenario.up) Scenario.B_back)) !! 100
    = Some conn' ∧
    outbound conn' = [NotificationFrame 2; NotificationFrame 0] ++ later.
Proof.
  pose proof (catch_up_replays_in_creation_order_before_live_push Scenario.cfg
                (fun i => if decide (i = Scenario.A) then PUBLIC else PUBLIC)
                {[ (Scenario.B, Scenario.A); (Scenario.C, Scenario.A) ]}
                [Publish Scenario.e1; Publish Scenario.e3;
                 Deliver Scenario.e3 Scenario.up; Deliver Scenario.e1 Scenario.up;
                 Connect Scenario.B 100]
                100
                {| owner := Scenario.B; established_at := 0; liveness := OPEN;
                   catching_up := true; outbound := [] |}
                Scenario.up) as H.
  destruct H as (_ & _ & _ & _ & Hstrict & _ & Hreplay & Hlater);
    [vm_compute; reflexivity | reflexivity | reflexivity |].
  split; [|split; [exact Hreplay|]].
  - apply Hstrict. by_evaluation.
  - exact (Hlater [Publish Scenario.e5; Deliver Scenario.e5 Scenario.up]).
Defined.

(** *** C6: bounded retry *)

Lemma count_fresh (l : list nat) b k :
  Forall (fun x => x < b) l → b ≤ k → length (filter (fun x => x = k) l) = 0.
Proof.
  intros Hall Hle. induction Hall as [|x l Hx _ IH]; [done|].
  rewrite filter_cons. destruct (decide (x = k)); [lia | exact IH].
Qed.

Lemma count_once (l : list nat) k :
  NoDup l → k ∈ l → length (filter (fun x => x = k) l) = 1.
Proof.
  induction 1 as [|x l Hx _ IH]; intros Hin; [by apply not_elem_of_nil in Hin|].
  rewrite filter_cons. destruct (decide (x = k)) as [->|Hne].
  - simpl. f_equal. change 0 with (length (@nil nat)). f_equal.
    apply filter_nothing. intros y Hy ->. done.
  - apply IH. apply elem_of_cons in Hin as [?|?]; [congruence | done].
Qed.

(** The four parts of [accounted], by arithmetic or from the last part of
    the hypothesis. *)
Ltac solve_accounted H4 :=
  split; [simpl; lia |
  split; [simpl; intros ?; first [lia | done | congruence] |
  split; [simpl; lia |
  simpl; intros Hmax;
  first [ lia
        | split; [done | lia]
        | destruct (H4 Hmax) as [? ?]; first [congruence | split; [done | lia]] ]]]].

Lemma accounted_write cfg st a n :
  accounted cfg a n → accounted cfg a (write_state st n).
Proof.
  intros (H1 & H2 & H3 & H4). unfold write_state.
  destruct (edge (state n) st) eqn:He; [|done].
  destruct (state n) eqn:Hs, st; try discriminate He; solve_accounted H4.
Qed.

Lemma accounted_sent cfg a n :
  state n = PENDING → accounted cfg a n →
  accounted cfg (a + 1) (write_state DELIVERED n).
Proof.
  intros Hp (H1 & H2 & H3 & H4). unfold write_state. rewrite Hp. simpl.
  specialize (H2 Hp). solve_accounted H4.
Qed.

Lemma pending_within_bound cfg a n :
  state n = PENDING → accounted cfg a n → attempt_count n ≤ max_attempts cfg.
Proof.
  intros Hp (_ & _ & _ & H4).
  destruct (decide (max_attempts cfg < attempt_count n)) as [Hmax|]; [|lia].
  destruct (H4 Hmax) as [He _]. congruence.
Qed.

Lemma accounted_failed cfg t a n :
  state n = PENDING → accounted cfg a n →
  accounted cfg (a + 1) (record_failure cfg t n).
Proof.
  intros Hp Hacc. pose proof (pending_within_bound cfg a n Hp Hacc) as Hle.
  destruct Hacc as (H1 & H2 & H3 & H4). unfold record_failure.
  destruct (decide (state n = PENDING)); [|done].
  specialize (H2 Hp).
  destruct (decide _) as [Hex|Hok]; [unfold write_state; simpl|]; solve_accounted H4.
Qed.

Lemma accounted_same s s' cfg :
  outbox s' = outbox s → next_id s' = next_id s → attempts s' = attempts s →
  attempts_accounted cfg s → attempts_accounted cfg s'.
Proof.
  intros Ho Hn Ha [Hall Hacc]. unfold attempts_accounted, attempts_of.
  rewrite Ho, Hn, Ha. done.
Qed.

Lemma accounted_update cfg nid f s s' :
  (∀ a n, accounted cfg a n → accounted cfg a (f n)) →
  outbox s' = update_notification nid f (outbox s) →
  next_id s' = next_id s → attempts s' = attempts s →
  attempts_accounted cfg s → attempts_accounted cfg s'.
Proof.
  intros Hf Ho Hn Ha [Hall Hacc]. unfold attempts_accounted, attempts_of.
  rewrite Ho, Hn, Ha. split; [done|]. intros k n. rewrite update_lookup.
  destruct (outbox s !! k) as [m|] eqn:Hk; [|done]. simpl. intros [= <-].
  specialize (Hacc k m Hk). destruct (decide _); [by apply Hf | done].
Qed.

Lemma accounted_attempt cfg nid n f s s' :
  well_formed s → find_notification nid (outbox s) = Some n → state n = PENDING →
  (∀ a, accounted cfg a n → accounted cfg (a + 1) (f n)) →
  outbox s' = update_notification nid f (outbox s) →
  next_id s' = next_id s → attempts s' = attempts s ++ [nid] →
  attempts_accounted cfg s → attempts_accounted cfg s'.
Proof.
  intros Hwf Hfind Hp Hf Ho Hn Ha [Hall Hacc].
  rewrite (find_notification_lookup s nid Hwf) in Hfind.
  destruct Hwf as [Hlen Hids].
  unfold attempts_accounted, attempts_of. rewrite Ho, Hn, Ha. split.
  - apply Forall_app. split; [done|]. constructor; [|done].
    apply lookup_lt_Some in Hfind. lia.
  - intros k m'. rewrite update_lookup, count_snoc.
    destruct (outbox s !! k) as [m|] eqn:Hk; [|done]. simpl. intros [= <-].
    rewrite (Hids k m Hk). specialize (Hacc k m Hk). unfold attempts_of in Hacc.
    destruct (decide (k = nid)) as [->|Hne].
    + assert (m = n) as -> by congruence.
      rewrite decide_True by done. by apply Hf.
    + rewrite decide_False by done. by rewrite Nat.add_0_r.
Qed.

Lemma moves_attempts_accounted cfg s s' :
  moves cfg s s' → well_formed s → attempts_accounted cfg s →
  attempts_accounted cfg s'.
Proof.
  induction 1 as [ | s1 s2 s3 H12 IH1 _ IH2 | s s' (Ho & Hn & _ & _ & Ha) | s r ev _
                 | s nid n cs Hfind Hp | s nid n Hfind Hp | s nid st
                 | s i c conn _ _ _ _ | s c conn l _ _ | s c | s ]; intros Hwf Hacc.
  - done.
  - apply IH2; [|by apply IH1]. by eapply moves_well_formed.
  - by apply (accounted_same s).
  - destruct Hacc as [Hall Hacc]. destruct Hwf as [Hlen Hids]. split; simpl.
    + eapply Forall_impl; [exact Hall|]. simpl. intros x Hx. lia.
    + intros k n Hk. unfold attempts_of. simpl.
      apply lookup_app_Some in Hk as [Hk | [Hge Hk]].
      * by apply Hacc.
      * apply list_lookup_singleton_Some in Hk as [Hz <-].
        rewrite (count_fresh (attempts s) (next_id s) k) by (done || lia).
        solve_accounted Hacc.
  - apply (accounted_attempt cfg nid n (write_state DELIVERED) s); try done.
    intros a. by apply accounted_sent.
  - apply (accounted_attempt cfg nid n (record_failure cfg (clock s)) s); try done.
    intros a. by apply accounted_failed.
  - apply (accounted_update cfg nid (write_state st) s); try done.
    intros a m. apply accounted_write.
  - by apply (accounted_same s).
  - by apply (accounted_same s).
  - by apply (accounted_same s).
  - by apply (accounted_same s).
Qed.

Lemma init_attempts_accounted cfg priv es : attempts_accounted cfg (init priv es).
Proof.
  split; [constructor|]. intros k n Hk. simpl in Hk. by rewrite lookup_nil in Hk.
Qed.

Lemma reachable_attempts_accounted cfg priv es t :
  attempts_accounted cfg (run cfg t (init priv es)).
Proof.
  eapply moves_attempts_accounted;
    [apply run_moves | apply init_well_formed | apply init_attempts_accounted].
Qed.

(** The record updates leave an EXPIRED record as it is. *)
Lemma expired_write_state st n : state n = EXPIRED → write_state st n = n.
Proof. intros He. unfold write_state. by rewrite He. Qed.

Lemma expired_record_failure cfg t n : state n = EXPIRED → record_failure cfg t n = n.
Proof. intros He. unfold record_failure. destruct (decide _); [congruence | done]. Qed.

Lemma expired_update nid f (ns : list Notification) k n :
  (∀ m, state m = EXPIRED → f m = m) → ns !! k = Some n → state n = EXPIRED →
  update_notification nid f ns !! k = Some n.
Proof.
  intros Hf Hk He. rewrite update_lookup, Hk. simpl.
  destruct (decide _); [by rewrite Hf | done].
Qed.

Lemma moves_expired_untouched cfg s s' :
  moves cfg s s' → well_formed s →
  ∀ k n, outbox s !! k = Some n → state n = EXPIRED →
    outbox s' !! k = Some n ∧ attempts_of s' k = attempts_of s k.
Proof.
  induction 1 as [ | s1 s2 s3 H12 IH1 _ IH2 | s s' (Ho & _ & _ & _ & Ha) | s r ev _
                 | s nid n0 cs Hfind Hp | s nid n0 Hfind Hp | s nid st
                 | s i c conn _ _ _ _ | s c conn l _ _ | s c | s ];
    intros Hwf k n Hk He.
  - done.
  - destruct (IH1 Hwf k n Hk He) as [Hk2 Ha2].
    destruct (IH2 (moves_well_formed _ _ _ H12 Hwf) k n Hk2 He) as [Hk3 Ha3].
    split; [done | congruence].
  - unfold attempts_of. by rewrite Ho, Ha.
  - split; [|done]. simpl. by apply lookup_app_l_Some.
  - rewrite (find_notification_lookup s nid Hwf) in Hfind.
    assert (Hne : nid ≠ k) by (intros ->; congruence).
    split; simpl.
    + apply expired_update; [apply expired_write_state | done..].
    + unfold attempts_of. simpl. rewrite count_snoc, decide_False by done. lia.
  - rewrite (find_notification_lookup s nid Hwf) in Hfind.
    assert (Hne : nid ≠ k) by (intros ->; congruence).
    split; simpl.
    + apply expired_update; [apply expired_record_failure | done..].
    + unfold attempts_of. simpl. rewrite count_snoc, decide_False by done. lia.
  - split; [|done]. simpl. apply expired_update; [apply expired_write_state | done..].
  - done.
  - done.
  - done.
  - done.
Qed.

Lemma visible_of_key s n n' :
  notification_key n' = notification_key n → visible s n' = visible s n.
Proof. unfold notification_key, visible. by intros [= -> ->]. Qed.

(** One round of the retry sweep for a record that is due and visible, the
    transport being down. *)
Lemma retry_sweep_failure cfg send s k n :
  well_formed s → outbox s !! k = Some n → state n = PENDING → visible s n = true →
  next_retry_at n ≤ clock s → (∀ c, send c k = false) →
  outbox (retry_sweep cfg send s) !! k = Some (record_failure cfg (clock s) n) ∧
  attempts_of (retry_sweep cfg send s) k = attempts_of s k + 1.
Proof.
  intros Hwf Hk Hp Hv Hdue Hdown. unfold retry_sweep.
  set (ids := notification_id <$>
                filter (fun n => state n = PENDING ∧ next_retry_at n ≤ clock s) (outbox s)).
  assert (Hnd : NoDup ids) by by apply filter_ids_NoDup.
  assert (Hid : notification_id n = k) by (destruct Hwf as [_ Hids]; by apply Hids).
  assert (Hin : k ∈ ids).
  { apply list_elem_of_fmap. exists n. split; [done|].
    apply list_elem_of_filter. split; [done|]. by eapply list_elem_of_lookup_2. }
  destruct (attempts_effect cfg send None ids s Hwf Hnd) as (_ & _ & Ho & _ & Ha).
  unfold push. split.
  - rewrite Ho, Hk, decide_True by done. simpl. f_equal.
    unfold attempted. rewrite decide_True, Hv by done.
    rewrite filter_nothing; [done|]. intros c _. rewrite Hid, Hdown. done.
  - unfold attempts_of. rewrite Ha, filter_app, length_app. f_equal.
    rewrite list_filter_filter.
    rewrite (filter_ext_in _ (fun x => x = k) ids).
    + by apply count_once.
    + intros x _. split; [tauto|]. intros ->. split; [done|]. by exists n.
Qed.

Lemma run_trace_app cfg a b s : run cfg (a ++ b) s = run cfg b (run cfg a s).
Proof. unfold run. apply foldl_app. Qed.

Lemma outage_succ send dt j :
  outage send dt (S j) = [Tick dt; RetrySweep send] ++ outage send dt j.
Proof. reflexivity. Qed.

(** Rounds of the retry sweep with the transport down take a PENDING record
    that is visible to EXPIRED, by as many attempts as are left to it. *)
Lemma outage_expires cfg send dt k : ∀ j s n,
  well_formed s → outbox s !! k = Some n → state n = PENDING → visible s n = true →
  (∀ c, send c k = false) → next_retry_at n ≤ clock s + dt → backoff_ceiling cfg ≤ dt →
  attempt_count n ≤ max_attempts cfg → max_attempts cfg < attempt_count n + j →
  ∃ n', outbox (run cfg (outage send dt j) s) !! k = Some n' ∧
        state n' = EXPIRED ∧ attempt_count n' = max_attempts cfg + 1 ∧
        attempts_of (run cfg (outage send dt j) s) k
        = attempts_of s k + (max_attempts cfg + 1 - attempt_count n).
Proof.
  induction j as [|j IH]; intros s n Hwf Hk Hp Hv Hdown Hdue Hdt Hle Hmax; [lia|].
  rewrite outage_succ, run_trace_app.
  change (run cfg [Tick dt; RetrySweep send] s)
    with (retry_sweep cfg send (set_clock (fun t => t + dt) s)).
  set (s1 := set_clock (fun t => t + dt) s).
  assert (Hwf1 : well_formed s1) by by apply (well_formed_same s).
  destruct (retry_sweep_failure cfg send s1 k n Hwf1 Hk Hp Hv) as [Hk2 Ha2];
    [simpl; lia | done |].
  change (attempts_of s1 k) with (attempts_of s k) in Ha2.
  set (s2 := retry_sweep cfg send s1) in *.
  assert (Hm2 : moves cfg s1 s2) by apply retry_sweep_moves.
  assert (Hwf2 : well_formed s2) by by eapply moves_well_formed.
  unfold record_failure in Hk2. rewrite decide_True in Hk2 by done.
  destruct (decide (max_attempts cfg < attempt_count n + 1)) as [Hex|Hok].
  - unfold write_state in Hk2. simpl in Hk2.
    destruct (moves_expired_untouched cfg s2 _ (run_moves cfg (outage send dt j) s2)
                Hwf2 k _ Hk2 eq_refl) as [Hk3 Ha3].
    eexists. split; [exact Hk3|]. split; [done|]. split; [simpl; lia|].
    rewrite Ha3, Ha2. lia.
  - destruct (IH s2 _ Hwf2 Hk2) as (n' & Hk3 & He & Hcount & Ha3); try done.
    + destruct (attempts_effect cfg send None
                  (notification_id <$>
                     filter (fun n => state n = PENDING ∧ next_retry_at n ≤ clock s1)
                       (outbox s1))
                  s1 Hwf1) as (_ & (Hw & _) & _); [by apply filter_ids_NoDup|].
      rewrite (visible_same_world s1 s2 _ Hw).
      by rewrite (visible_of_key s1 n).
    + assert (Hb : backoff cfg (attempt_count n + 1) ≤ backoff_ceiling cfg)
        by (unfold backoff; lia).
      assert (Hclock : clock s2 = clock s1).
      { destruct (attempts_effect cfg send None
                    (notification_id <$>
                       filter (fun n => state n = PENDING ∧ next_retry_at n ≤ clock s1)
                         (outbox s1))
                    s1 Hwf1) as (_ & ((_ & _ & _ & _ & Hcl) & _) & _);
          [by apply filter_ids_NoDup | done]. }
      rewrite Hclock. cbn [next_retry_at with_delivery].
      change (clock s1) with (clock s + dt). lia.
    + simpl. lia.
    + simpl. lia.
    + exists n'. split; [done|]. split; [done|]. split; [done|].
      rewrite Ha3, Ha2. simpl. lia.
Qed.

(** C6. In every state the engine reaches, no more than the maximum attempt
    count plus one delivery attempts have been made for a record, and a
    record whose attempt count is beyond the maximum is EXPIRED.  An EXPIRED
    record is final: whatever the engine does later, the record stays as it
    is and no further attempt is made for it.  And the retry does end: with
    the transport down, the rounds of the retry sweep make for a PENDING
    record the attempts that are left to it, one a round, and leave it
    EXPIRED, however many rounds follow. *)
Theorem retry_is_bounded cfg priv es t :
  let s := run cfg t (init priv es) in
  (∀ k n, outbox s !! k = Some n →
     attempts_of s k ≤ max_attempts cfg + 1 ∧
     attempt_count n ≤ max_attempts cfg + 1 ∧
     (max_attempts cfg < attempt_count n → state n = EXPIRED)) ∧
  (∀ k n t', outbox s !! k = Some n → state n = EXPIRED →
     outbox (run cfg t' s) !! k = Some n ∧
     attempts_of (run cfg t' s) k = attempts_of s k) ∧
  (∀ send dt j k n,
     outbox s !! k = Some n → state n = PENDING → visible s n = true →
     (∀ c, send c k = false) →
     next_retry_at n ≤ clock s + dt → backoff_ceiling cfg ≤ dt →
     max_attempts cfg < attempt_count n + j →
     ∃ n', outbox (run cfg (outage send dt j) s) !! k = Some n' ∧
           state n' = EXPIRED ∧ attempt_count n' = max_attempts cfg + 1 ∧
           attempts_of (run cfg (outage send dt j) s) k
           = attempts_of s k + (max_attempts cfg + 1 - attempt_count n)).
Proof.
  intros s.
  assert (Hwf : well_formed s) by apply reachable_well_formed.
  assert (Hacc : attempts_accounted cfg s) by apply reachable_attempts_accounted.
  split; [|split].
  - intros k n Hk. destruct Hacc as [_ Hacc].
    destruct (Hacc k n Hk) as (H1 & H2 & H3 & H4).
    split; [|split; [done|]].
    + destruct (decide (max_attempts cfg < attempt_count n)) as [Hmax|Hle].
      * destruct (H4 Hmax) as [_ Ha]. lia.
      * lia.
    + intros Hmax. by destruct (H4 Hmax).
  - intros k n t' Hk He.
    by apply (moves_expired_untouched cfg s (run cfg t' s) (run_moves cfg t' s)).
  - intros send dt j k n Hk Hp Hv Hdown Hdue Hdt Hmax.
    apply (outage_expires cfg send dt k j s n); try done.
    destruct Hacc as [_ Hacc]. by apply (pending_within_bound cfg _ n Hp (Hacc k n Hk)).
Qed.

Example five_failures_expire :
  (fun n => (state n, attempt_count n)) <$> outbox
    (run Scenario.cfg
       [Publish Scenario.e1; Deliver Scenario.e1 Scenario.down;
        Tick 100; RetrySweep Scenario.down; Tick 100; RetrySweep Scenario.down;
        Tick 100; RetrySweep Scenario.down; Tick 100; RetrySweep Scenario.down;
        Tick 100; RetrySweep Scenario.up; Connect Scenario.B 100;
        CatchUp 100 Scenario.up]
       (Scenario.world PUBLIC))
  = [(EXPIRED, 5); (EXPIRED, 5)].
Proof. vm_compute. reflexivity. Qed.

Lemma retry_is_bounded_witness :
  ∃ n', outbox (run Scenario.cfg (outage Scenario.down 60 7)
                  (run Scenario.cfg [Publish Scenario.e1; Deliver Scenario.e1 Scenario.down]
                     (Scenario.world PUBLIC))) !! 0 = Some n' ∧
        state n' = EXPIRED ∧ attempt_count n' = 5 ∧
        attempts_of (run Scenario.cfg (outage Scenario.down 60 7)
                       (run Scenario.cfg
                          [Publish Scenario.e1; Deliver Scenario.e1 Scenario.down]
                          (Scenario.world PUBLIC))) 0
        = 1 + 4.
Proof.
  refine (proj2 (proj2 (retry_is_bounded Scenario.cfg
                          (fun i => if decide (i = Scenario.A) then PUBLIC else PUBLIC)
                          {[ (Scenario.B, Scenario.A); (Scenario.C, Scenario.A) ]}
                          [Publish Scenario.e1; Deliver Scenario.e1 Scenario.down]))
            Scenario.down 60 7 0
            {| notification_id := 0; recipient_id := Scenario.B; notified_event := 1;
               state := PENDING; attempt_count := 1; next_retry_at := 2 |}
            _ _ _ _ _ _ _).
  - vm_compute. reflexivity.
  - reflexivity.
  - vm_compute. reflexivity.
  - reflexivity.
  - vm_compute. lia.
  - simpl. lia.
  - simpl. lia.
Defined.

End EngineFacts.

(* ===================================================================== *)
(** ** More properties of the dashboard page *)
(* ===================================================================== *)

Module DashboardMoreFacts.
Import Dashboard DashboardSession.

#[local] Open Scope string_scope.

Lemma relative_index_bounds (len i : Z) :
  (0 <= len)%Z → (0 <= relative_index len i <= len)%Z.
Proof. intros Hlen. unfold relative_index. destruct (Z.ltb_spec i 0); lia. Qed.

(** X1. Whatever the index [n] is, negative or beyond the end of the list
    too, [arr.slice(0, n)] followed by [arr.slice(n)] is [arr]: the two
    sections of the dashboard lose and repeat no post however the split
    index is chosen. *)
Theorem slice_splits_at_any_index {A} (n : Z) (arr : list A) :
  (slice 0 (Some n) arr ++ slice n None arr)%list = arr.
Proof.
  unfold slice.
  pose proof (relative_index_bounds (Z.of_nat (length arr)) n ltac:(lia)) as Hk.
  pose proof (relative_index_bounds (Z.of_nat (length arr)) 0 ltac:(lia)) as H0.
  assert (relative_index (Z.of_nat (length arr)) 0 = 0%Z) as ->.
  { unfold relative_index. simpl. lia. }
  set (k := relative_index (Z.of_nat (length arr)) n) in *.
  change (Z.to_nat 0) with 0%nat. rewrite drop_0.
  rewrite Z.sub_0_r, Z.max_l by lia.
  rewrite (take_ge (drop (Z.to_nat k) arr)) by (rewrite length_drop; lia).
  apply take_drop.
Qed.

(** X2. A posts list of at most two posts is rendered whole by the 'Latest
    For You' section, and the 'Trending Posts' section renders nothing. *)
Theorem short_posts_list_leaves_trending_empty (posts : list Post) :
  length posts <= 2 →
  latestForYou posts = PostCard <$> posts ∧ trendingPosts posts = [].
Proof.
  intros Hlen. unfold latestForYou, trendingPosts.
  rewrite DashboardFacts.slice_0_2, DashboardFacts.slice_2.
  rewrite take_ge, drop_ge by lia. done.
Qed.

Lemma short_posts_list_witness :
  latestForYou mockPosts = PostCard <$> mockPosts ∧ trendingPosts mockPosts = [].
Proof. apply short_posts_list_leaves_trending_empty. simpl. lia. Defined.

Lemma key_PostCard (posts : list Post) : key <$> (PostCard <$> posts) = post_id <$> posts.
Proof. rewrite <- list_fmap_compose. by apply list_fmap_ext. Qed.

(** X3. When the ids of the posts are pairwise distinct, the keys of the
    rendered cards are pairwise distinct within each section and across the
    two sections. *)
Theorem distinct_post_ids_give_distinct_keys (posts : list Post) :
  NoDup (post_id <$> posts) →
  NoDup (key <$> latestForYou posts) ∧
  NoDup (key <$> trendingPosts posts) ∧
  NoDup (key <$> (latestForYou posts ++ trendingPosts posts)%list).
Proof.
  intros Hnd. unfold latestForYou, trendingPosts.
  rewrite DashboardFacts.slice_0_2, DashboardFacts.slice_2.
  assert (Hall : NoDup (key <$> ((PostCard <$> take 2 posts)
                                 ++ (PostCard <$> drop 2 posts))%list)).
  { rewrite <- fmap_app, take_drop, key_PostCard. exact Hnd. }
  split; [|split; [|exact Hall]].
  - rewrite fmap_app in Hall. by apply NoDup_app in Hall as (H & _ & _).
  - rewrite fmap_app in Hall. by apply NoDup_app in Hall as (_ & _ & H).
Qed.

Lemma distinct_keys_witness :
  NoDup (key <$> latestForYou mockPosts) ∧
  NoDup (key <$> trendingPosts mockPosts) ∧
  NoDup (key <$> (latestForYou mockPosts ++ trendingPosts mockPosts)%list).
Proof.
  apply distinct_post_ids_give_distinct_keys.
  refine (bool_decide_unpack _ _). vm_compute. exact I.
Defined.

(** *** Repeated logouts *)

Lemma run_callbacks_route (l : list (nat * Callback)) : ∀ b,
  Forall (fun t => t.2 = RouterPush "/") l →
  let b' := foldl (fun acc t => run_callback t.2 acc) b l in
  localStorage b' = localStorage b ∧ timers b' = timers b ∧ now b' = now b ∧
  route b' = match l with [] => route b | _ :: _ => "/" end.
Proof.
  induction l as [|t l IH]; intros b Hall; [done|].
  apply Forall_cons in Hall as [Ht Hall]. simpl.
  destruct (IH (run_callback t.2 b) Hall) as (Hs & Htm & Hn & Hr).
  rewrite Hs, Htm, Hn, Hr, Ht. simpl. repeat split. by destruct l.
Qed.

Lemma fire_route (due : list (nat * Callback)) (b : Browser) :
  Forall (fun t => t.2 = RouterPush "/") due →
  localStorage (fire due b) = localStorage b ∧ timers (fire due b) = timers b ∧
  now (fire due b) = now b ∧
  route (fire due b) = match due with [] => route b | _ :: _ => "/" end.
Proof.
  intros Hall. unfold fire.
  pose proof (merge_sort_Permutation due_before due) as Hperm.
  assert (Hall' : Forall (fun t => t.2 = RouterPush "/") (merge_sort due_before due))
    by by rewrite Hperm.
  destruct (run_callbacks_route _ b Hall') as (Hs & Htm & Hn & Hr).
  repeat split; try done. rewrite Hr.
  destruct due as [|t due].
  - apply Permutation_nil_r in Hperm. by rewrite Hperm.
  - destruct (merge_sort due_before (t :: due)) eqn:Hsorted; [|done].
    symmetry in Hperm. by apply Permutation_nil_r in Hperm.
Qed.

Lemma handleLogout_invariant clicked r b :
  logout_invariant clicked b → logout_invariant true (handleLogout r b).
Proof.
  intros [Hall _]. destruct r as [|err].
  - split; [exact Hall|]. intros _. split; [done | by left].
  - assert (Ht : timers (handleLogout (Rejected err) b)
                 = (timers b ++ [(now b + 1500, RouterPush "/")])%list)
      by (destruct err; reflexivity).
    assert (Hn : now (handleLogout (Rejected err) b) = now b)
      by (destruct err; reflexivity).
    assert (Hs : localStorage (handleLogout (Rejected err) b) = ∅)
      by (destruct err; reflexivity).
    split.
    + rewrite Ht, Hn. apply Forall_app. split; [exact Hall|].
      constructor; [|constructor]. simpl. split; [done | lia].
    + intros _. split; [exact Hs|]. right. rewrite Ht. by destruct (timers b).
Qed.

Lemma filter_all {A} (P : A → Prop) `{!∀ x, Decision (P x)} (l : list A) :
  Forall P l → filter P l = l.
Proof.
  induction 1 as [|x l Hx _ IH]; [done|]. by rewrite filter_cons_True, IH.
Qed.

Lemma filter_none {A} (P : A → Prop) `{!∀ x, Decision (P x)} (l : list A) :
  Forall (fun x => ¬ P x) l → filter P l = [].
Proof.
  induction 1 as [|x l Hx _ IH]; [done|]. by rewrite filter_cons_False.
Qed.

Lemma advance_invariant clicked dt b :
  logout_invariant clicked b → logout_invariant clicked (advance dt b).
Proof.
  intros [Hall Hclicked]. unfold advance.
  remember (now b + dt) as t eqn:Ht.
  remember (filter (fun x : nat * Callback => x.1 <= t) (timers b)) as due eqn:Hdue.
  remember (filter (fun x : nat * Callback => ¬ x.1 <= t) (timers b)) as rest eqn:Hrest.
  assert (Hin_due : ∀ x, x ∈ due ↔ x.1 <= t ∧ x ∈ timers b)
    by (intros x; rewrite Hdue;
        exact (list_elem_of_filter (fun x : nat * Callback => x.1 <= t) (timers b) x)).
  assert (Hin_rest : ∀ x, x ∈ rest ↔ ¬ x.1 <= t ∧ x ∈ timers b)
    by (intros x; rewrite Hrest;
        exact (list_elem_of_filter (fun x : nat * Callback => ¬ x.1 <= t) (timers b) x)).
  clear Hdue Hrest. rewrite Forall_forall in Hall.
  assert (Hcb : Forall (fun x : nat * Callback => x.2 = RouterPush "/") due).
  { apply Forall_forall. intros x Hx. apply Hin_due in Hx as [_ Hx].
    by destruct (Hall x Hx). }
  match goal with |- logout_invariant _ (fire _ ?b0) =>
    destruct (fire_route due b0 Hcb) as (Hs & Htm & Hn & Hr) end.
  split.
  - rewrite Htm, Hn. simpl. apply Forall_forall. intros x Hx.
    apply Hin_rest in Hx as [_ Hx]. destruct (Hall x Hx) as [Hc Hle].
    split; [done | lia].
  - intros Hc. destruct (Hclicked Hc) as [Hempty Hroute].
    rewrite Hs, Hr, Htm. simpl. split; [done|].
    destruct due as [|x due']; [|by left].
    destruct Hroute as [Hroute | Hne]; [by left|]. right.
    destruct (timers b) as [|y ts]; [done|].
    assert (Hy : y ∈ y :: ts) by apply list_elem_of_here.
    destruct (decide (y.1 <= t)) as [Hle | Hgt].
    + assert (y ∈ []) as Hin by (by apply Hin_due). by apply elem_of_nil in Hin.
    + assert (y ∈ rest) as Hin by (by apply Hin_rest).
      intros Hnil. rewrite Hnil in Hin. by apply elem_of_nil in Hin.
Qed.

Lemma session_invariant script : ∀ clicked b,
  logout_invariant clicked b →
  logout_invariant (clicked || existsb is_click script) (session script b).
Proof.
  induction script as [|a script IH]; intros clicked b Hinv; simpl.
  - by rewrite orb_false_r.
  - destruct a as [r | dt]; simpl.
    + replace (clicked || true) with (true || existsb is_click script)
        by by rewrite orb_true_r.
      apply IH. by eapply handleLogout_invariant.
    + apply IH. by apply advance_invariant.
Qed.

(** X4. However often the logout button is pressed, whatever each backend
    call does and however much time passes in between, 1500 ms after the last
    of these events [localStorage] is empty, the route is '/' and no timer is
    left. *)
Theorem logout_survives_repeated_clicks
    (storage : gmap string string) (path : string) (script : list Action) :
  existsb is_click script = true →
  let b := advance 1500 (session script (page storage path)) in
  localStorage b = ∅ ∧ route b = "/" ∧ timers b = [].
Proof.
  intros Hclick b.
  assert (Hinit : logout_invariant false (page storage path)).
  { split; [constructor | discriminate]. }
  apply session_invariant with (script := script) in Hinit.
  rewrite Hclick in Hinit. simpl in Hinit.
  set (b1 := session script (page storage path)) in *.
  destruct Hinit as [Hall Hclicked]. destruct (Hclicked eq_refl) as [Hempty Hroute].
  subst b. unfold advance.
  assert (Hdue : filter (fun x : nat * Callback => x.1 <= now b1 + 1500) (timers b1)
                 = timers b1).
  { apply filter_all. eapply Forall_impl; [exact Hall|]. by intros x [_ ?]. }
  assert (Hrest : filter (fun x : nat * Callback => ¬ x.1 <= now b1 + 1500) (timers b1)
                  = []).
  { apply filter_none. eapply Forall_impl; [exact Hall|].
    intros x [_ Hle] Hn. by apply Hn. }
  rewrite Hdue, Hrest.
  assert (Hcb : Forall (fun x : nat * Callback => x.2 = RouterPush "/") (timers b1)).
  { eapply Forall_impl; [exact Hall|]. by intros x [? _]. }
  match goal with |- context [fire _ ?b0] =>
    destruct (fire_route (timers b1) b0 Hcb) as (Hs & Htm & _ & Hr) end.
  rewrite Hs, Htm, Hr. simpl. repeat split; [done|].
  destruct (timers b1); [|done]. by destruct Hroute.
Qed.

Lemma logout_survives_repeated_clicks_witness :
  let b := advance 1500
             (session [Click (Rejected OtherError); Wait 700;
                       Click (Rejected (ApiError "Session expired")); Wait 900;
                       Click Resolved; Wait 100]
                (page {[ "access_token" := "abc" ]} "/dashboard")) in
  localStorage b = ∅ ∧ route b = "/" ∧ timers b = [].
Proof. apply logout_survives_repeated_clicks. reflexivity. Defined.

End DashboardMoreFacts.

(* ===================================================================== *)
(** ** Properties of the current user of the dashboard *)
(* ===================================================================== *)

Module DashboardUserFacts.
Import Js DashboardUser.

#[local] Open Scope string_scope.

Lemma get_spread_set_eq prev k v : get (spread_set prev k v) k = v.
Proof. unfold get, spread_set. by rewrite lookup_insert_eq. Qed.

Lemma get_spread_set_ne prev k k' v :
  k ≠ k' → get (spread_set prev k v) k' = get (default ∅ prev) k'.
Proof. intros Hne. unfold get, spread_set. by rewrite lookup_insert_ne. Qed.

Lemma user_field_default c k : user_field c k = get (default ∅ (currentUser c)) k.
Proof.
  unfold user_field. destruct (currentUser c); [done|].
  simpl. unfold get. by rewrite lookup_empty.
Qed.

(** X5. When files are selected, the first one and only that one is sent to
    [userApi.updateAvatar]; when the upload answers with a truthy avatar URL,
    the sidebar shows the image with that URL, and every other property of
    the user is as it was; with a falsy URL the sidebar shows the user icon;
    when the upload throws, the user is as before.  With no file selected
    (a [null] or an empty file list) nothing happens at all. *)
Theorem image_upload_sets_avatar_only
    (api : string → AvatarResponse) (c : Component) (file : string) (others : list string) :
  let c' := handleImageUpload (Some (file :: others)) api c in
  uploads c' = (uploads c ++ [file])%list ∧
  (∀ url, api file = AvatarOk url →
     (∀ k, k ≠ "avatar" → user_field c' k = user_field c k) ∧
     user_field c' "avatar" = url ∧
     (truthy url = true → sidebar_avatar c' = Img url (user_field c "name")) ∧
     (truthy url = false → sidebar_avatar c' = UserIcon)) ∧
  (api file = AvatarThrows →
     currentUser c' = currentUser c ∧ sidebar_avatar c' = sidebar_avatar c) ∧
  handleImageUpload None api c = c ∧
  handleImageUpload (Some []) api c = c.
Proof.
  intros c'. subst c'. unfold handleImageUpload. simpl.
  split; [by destruct (api file)|]. split; [|split; [|done]].
  - intros url ->.
    assert (Hother : ∀ k, k ≠ "avatar" →
              user_field (handleAvatarUpload (AvatarOk url) file c) k = user_field c k).
    { intros k Hk. rewrite (user_field_default c). unfold user_field. simpl.
      by apply get_spread_set_ne. }
    assert (Havatar : user_field (handleAvatarUpload (AvatarOk url) file c) "avatar" = url).
    { unfold user_field. simpl. apply get_spread_set_eq. }
    split; [exact Hother|]. split; [exact Havatar|].
    unfold sidebar_avatar. rewrite Havatar, (Hother "name") by done.
    split; by intros ->.
  - by intros ->.
Qed.

Lemma image_upload_witness :
  sidebar_avatar
    (handleImageUpload (Some ["me.png"; "other.png"])
       (fun _ => AvatarOk (Str "/media/avatars/me.png"))
       (loadUser (ProfileOk {[ "username" := Str "jane"; "name" := Str "Jane Smith" ]})
          mounted))
  = Img (Str "/media/avatars/me.png") (Str "Jane Smith").
Proof.
  destruct (image_upload_sets_avatar_only
              (fun _ => AvatarOk (Str "/media/avatars/me.png"))
              (loadUser (ProfileOk {[ "username" := Str "jane"; "name" := Str "Jane Smith" ]})
                 mounted)
              "me.png" ["other.png"]) as (_ & Hok & _).
  destruct (Hok (Str "/media/avatars/me.png") eq_refl) as (_ & _ & Himg & _).
  rewrite (Himg eq_refl). reflexivity.
Defined.

(** X6. The profile load replaces the whole user: an avatar set by an upload
    that finished before the load is kept only if the loaded data carries
    it, while an upload after the load keeps every loaded property.  A
    failed load leaves the user as it is, so on a fresh page the sidebar
    shows the user icon and no name, and a first upload then yields a user
    that has an avatar and no username. *)
Theorem profile_load_and_avatar_upload_order
    (c : Component) (data : gmap string JsValue) (url : JsValue) (file : string) :
  currentUser (loadUser (ProfileOk data) (handleAvatarUpload (AvatarOk url) file c))
  = Some data ∧
  currentUser (handleAvatarUpload (AvatarOk url) file (loadUser (ProfileOk data) c))
  = Some (<["avatar" := url]> data) ∧
  (∀ k, k ≠ "avatar" →
     user_field (handleAvatarUpload (AvatarOk url) file (loadUser (ProfileOk data) c)) k
     = get data k) ∧
  currentUser (loadUser ProfileThrows c) = currentUser c ∧
  sidebar_avatar (loadUser ProfileThrows mounted) = UserIcon ∧
  user_field (loadUser ProfileThrows mounted) "name" = Undefined ∧
  (∀ k, k ≠ "avatar" →
     user_field (handleAvatarUpload (AvatarOk url) file (loadUser ProfileThrows mounted)) k
     = Undefined).
Proof.
  repeat split; try reflexivity.
  - intros k Hk. unfold user_field. simpl. unfold get, spread_set. simpl.
    by rewrite lookup_insert_ne.
  - intros k Hk. unfold user_field. simpl. unfold get, spread_set. simpl.
    by rewrite lookup_insert_ne, lookup_empty.
Qed.

Lemma profile_load_and_avatar_upload_witness :
  user_field
    (handleAvatarUpload (AvatarOk (Str "/a.png")) "a.png"
       (loadUser (ProfileOk {[ "username" := Str "jane" ]}) mounted)) "username"
  = Str "jane".
Proof.
  destruct (profile_load_and_avatar_upload_order mounted {[ "username" := Str "jane" ]}
              (Str "/a.png") "a.png") as (_ & _ & Hkeep & _).
  rewrite (Hkeep "username") by discriminate. reflexivity.
Defined.

End DashboardUserFacts.

(* ===================================================================== *)
(** ** Properties of the profile pages *)
(* ===================================================================== *)

Module ProfileFacts.
Import Js Profile.

#[local] Open Scope string_scope.

Lemma run_app evs1 evs2 st : run (evs1 ++ evs2)%list st = run evs2 (run evs1 st).
Proof. unfold run. apply foldl_app. Qed.

Lemma run_has_something evs : ∀ st,
  (loading st = true ∨ error st ≠ None ∨ profile st ≠ None) →
  loading (run evs st) = true ∨ error (run evs st) ≠ None ∨ profile (run evs st) ≠ None.
Proof.
  induction evs as [|ev evs IH]; intros st Hst; [done|].
  simpl. apply IH. destruct ev as [uuid | [data | message]]; simpl.
  - by left.
  - by right; right.
  - by right; left.
Qed.

(** X7. Whatever fetches start and however they settle, in whatever order,
    the profile page of [app/profile/[uuid]/page.tsx] never reads a property of
    a [null] profile: it renders the loading text, the error text or the
    profile; and so does the page of [app/profile/page.tsx] after its one
    fetch. *)
Theorem profile_page_never_reads_null_profile
    (evs : list Event) (uuid : Query) (path : string) (r : Settled) :
  render uuid (run evs (mounted path)) ≠ TypeError ∧
  own_render (own_fetch_start (mounted path)) = Loading ∧
  own_render (own_fetch_settle r (own_fetch_start (mounted path))) ≠ TypeError.
Proof.
  split; [|split; [done | by destruct r]].
  destruct (run_has_something evs (mounted path)) as [Hl | [He | Hp]]; [by left|..];
    unfold render.
  - by rewrite Hl.
  - destruct (loading _); [done|]. by destruct (error _).
  - destruct (loading _); [done|]. destruct (error _); [done|]. by destruct (profile _).
Qed.

Lemma run_keeps_error evs : ∀ st, error st ≠ None → error (run evs st) ≠ None.
Proof.
  induction evs as [|ev evs IH]; intros st Hst; [done|].
  simpl. apply IH. by destruct ev as [uuid | [data | message]].
Qed.

(** X8. The error of a profile page is never cleared: once a fetch has
    failed, the page shows the loading text or an error text and never a
    profile again, however many later fetches succeed. *)
Theorem failed_fetch_hides_profile_for_good
    (evs1 evs2 : list Event) (message : JsValue) (uuid : Query) (st : PageState) :
  let st' := run (evs1 ++ Settle (Rejected message) :: evs2)%list st in
  error st' ≠ None ∧ is_profile_view (render uuid st') = false.
Proof.
  intros st'.
  assert (He : error st' ≠ None).
  { subst st'. rewrite run_app. simpl. by apply run_keeps_error. }
  split; [exact He|]. unfold render.
  destruct (loading st'); [done|]. by destruct (error st').
Qed.

Example later_success_stays_hidden :
  render (QString "b")
    (run [Start (QString "a"); Settle (Rejected (Str "Network Error"));
          Start (QString "b"); Settle (Resolved {[ "username" := Str "bob" ]})]
       (mounted "/profile/a"))
  = ErrorView (Str "Network Error").
Proof. reflexivity. Qed.

(** X9. When a call resolves and no call has failed before, the page shows
    that response at once: under whatever [uuid] is current, also when the
    response answers an earlier request, and also while a later request is
    still on its way. *)
Theorem resolved_response_is_shown_whatever_it_answers
    (evs : list Event) (data : gmap string JsValue) (uuid : Query) (st : PageState) :
  error (run evs st) = None →
  render uuid (run (evs ++ [Settle (Resolved data)])%list st)
  = ProfileView (get data "username") (get data "first_name") (get data "last_name")
      (get data "email") (get data "bio") (negb (query_truthy uuid)).
Proof.
  intros He. rewrite run_app. simpl. unfold render. simpl. by rewrite He.
Qed.

Lemma resolved_response_witness :
  render (QString "b")
    (run ([Start (QString "a"); Start (QString "b");
           Settle (Resolved {[ "username" := Str "bob" ]})]
          ++ [Settle (Resolved {[ "username" := Str "alice" ]})])%list
       (mounted "/profile/a"))
  = ProfileView (Str "alice") Undefined Undefined Undefined Undefined false.
Proof.
  rewrite (resolved_response_is_shown_whatever_it_answers
             [Start (QString "a"); Start (QString "b");
              Settle (Resolved {[ "username" := Str "bob" ]})]
             {[ "username" := Str "alice" ]} (QString "b") (mounted "/profile/a"))
    by reflexivity.
  vm_compute. reflexivity.
Defined.

(** *** The edit page *)

Lemma type_all_snoc changes c st :
  type_all (changes ++ [c])%list st = handleChange c.1 c.2 (type_all changes st).
Proof. unfold type_all. by rewrite foldl_app. Qed.

Lemma type_all_keeps changes st :
  edit_loading (type_all changes st) = edit_loading st ∧
  edit_error (type_all changes st) = edit_error st ∧
  edit_requests (type_all changes st) = edit_requests st ∧
  edit_route (type_all changes st) = edit_route st.
Proof.
  induction changes as [|c changes IH] using rev_ind; [done|].
  rewrite type_all_snoc. simpl. exact IH.
Qed.

(** X10. After any sequence of input changes, each property of the profile
    data holds the value typed last into the input of that name, or its
    former value when nothing was typed there; and that data is what a
    submit sends to [userApi.updateProfile]. *)
Theorem typed_values_reach_the_save
    (changes : list (string * string)) (st : EditState) (r : Saved) :
  (∀ k, get (profileData (type_all changes st)) k
        = match last_typed k changes with
          | Some v => Str v
          | None => get (profileData st) k
          end) ∧
  edit_requests (handleSubmit r (type_all changes st))
  = (edit_requests st ++ [UpdateProfile (profileData (type_all changes st))])%list.
Proof.
  split.
  - intros k. induction changes as [|[name value] changes IH] using rev_ind; [done|].
    rewrite type_all_snoc. simpl. unfold last_typed. rewrite filter_app, filter_cons.
    simpl. destruct (decide (name = k)) as [->|Hne]; rewrite filter_nil.
    + rewrite last_snoc. simpl. unfold get, spread_set. simpl.
      by rewrite lookup_insert_eq.
    + rewrite app_nil_r. fold (last_typed k changes). rewrite <- IH.
      unfold get, spread_set. simpl. by rewrite lookup_insert_ne.
  - destruct (type_all_keeps changes st) as (_ & _ & Hreq & _).
    destruct r; simpl; by rewrite Hreq.
Qed.

Lemma typed_values_witness :
  get (profileData
         (type_all [("bio", "Hi"); ("first_name", "Jane"); ("bio", "Hello")]
            (edit_fetch_settle (Resolved {[ "last_name" := Str "Smith" ]})
               (edit_mounted "/profile/edit")))) "bio" = Str "Hello".
Proof.
  rewrite (proj1 (typed_values_reach_the_save
                    [("bio", "Hi"); ("first_name", "Jane"); ("bio", "Hello")]
                    (edit_fetch_settle (Resolved {[ "last_name" := Str "Smith" ]})
                       (edit_mounted "/profile/edit")) SaveOk)).
  reflexivity.
Defined.

Lemma handleSubmit_call_then_settle r st :
  handleSubmit r st = submit_settle r (submit_call st).
Proof. by destruct r. Qed.

Lemma edit_run_app a b st : edit_run (a ++ b)%list st = edit_run b (edit_run a st).
Proof. unfold edit_run. apply foldl_app. Qed.

(** Once the fetch has settled the page is never loading again. *)
Lemma edit_run_loaded evs : ∀ st,
  edit_loading st = false → edit_loading (edit_run evs st) = false.
Proof.
  induction evs as [|ev evs IH]; intros st Hl; [done|].
  simpl. apply IH.
  destruct ev as [[data | message] | name value | | [|message]]; simpl; try done;
    by destruct (form_shown st).
Qed.

(** Once an error is set the form is gone: no further call is made, and the
    route changes only when a save that is in flight resolves. *)
Lemma edit_run_error_is_final evs : ∀ st,
  edit_loading st = false → edit_error st ≠ None →
  edit_loading (edit_run evs st) = false ∧ edit_error (edit_run evs st) ≠ None ∧
  edit_requests (edit_run evs st) = edit_requests st ∧
  edit_route (edit_run evs st)
  = if save_resolves evs then "/profile" else edit_route st.
Proof.
  induction evs as [|ev evs IH]; intros st Hl He; [done|].
  assert (Hshown : form_shown st = false).
  { unfold form_shown, edit_render. rewrite Hl. by destruct (edit_error st). }
  change (edit_run (ev :: evs) st) with (edit_run evs (edit_handle ev st)).
  destruct ev as [[data | message] | name value | | [|message]];
    cbn [edit_handle save_resolves existsb orb]; rewrite ?Hshown.
  - destruct (IH (edit_fetch_settle (Resolved data) st)) as (? & ? & ? & ?); done.
  - destruct (IH (edit_fetch_settle (Rejected message) st)) as (? & ? & ? & ?); done.
  - by apply IH.
  - by apply IH.
  - destruct (IH (submit_settle SaveOk st)) as (? & ? & ? & Hroute); [done..|].
    split; [done|]. split; [done|]. split; [done|]. rewrite Hroute.
    fold (save_resolves evs). by destruct (save_resolves evs).
  - destruct (IH (submit_settle (SaveThrows message) st)) as (? & ? & ? & ?); done.
Qed.

(** Two saves are in flight; the first throws, the second resolves: the
    page shows the error and has navigated to '/profile'. *)
Example a_save_in_flight_still_navigates :
  let st := edit_run [SubmitClick; Change "bio" "Hello"; SubmitClick;
                      SubmitSettle (SaveThrows (Str "Bad Request"));
                      SubmitSettle SaveOk]
              (edit_fetch_settle (Resolved {[ "bio" := Str "Hi" ]})
                 (edit_mounted "/profile/edit")) in
  edit_render st = EditError (Str "Bad Request") ∧ edit_route st = "/profile" ∧
  edit_requests st
  = [GetProfile; UpdateProfile {[ "bio" := Str "Hi" ]};
     UpdateProfile {[ "bio" := Str "Hello" ]}].
Proof. vm_compute. repeat split; reflexivity. Qed.

(** X11. A save is called while the form is shown and sends the profile
    data of that moment.  When it throws an [Error], whatever happened on
    the page while it was in flight, the form is replaced by the error text
    for good: whatever happens afterwards, the form is not shown again and
    no further call is made.  The route is then '/profile' when a save that
    was still in flight resolves afterwards, and stays as it was otherwise.
    A save that resolves navigates to '/profile'. *)
Theorem failed_save_ends_the_form
    (st : EditState) (message : JsValue) (before after : list EditEvent) :
  form_shown st = true →
  let called := edit_handle SubmitClick st in
  let failed := edit_handle (SubmitSettle (SaveThrows message)) (edit_run before called) in
  let st' := edit_run after failed in
  edit_requests called = (edit_requests st ++ [UpdateProfile (profileData st)])%list ∧
  form_shown st' = false ∧
  (∃ m, edit_render st' = EditError m) ∧
  edit_requests st' = edit_requests failed ∧
  edit_route st' = (if save_resolves after then "/profile" else edit_route failed) ∧
  edit_route (edit_handle (SubmitSettle SaveOk) called) = "/profile".
Proof.
  intros Hshown called failed st'.
  assert (Hl : edit_loading st = false).
  { unfold form_shown, edit_render in Hshown. by destruct (edit_loading st). }
  assert (Hcalled : called = submit_call st).
  { unfold called. simpl. by rewrite Hshown. }
  assert (Hl1 : edit_loading (edit_run before called) = false).
  { apply edit_run_loaded. by rewrite Hcalled. }
  destruct (edit_run_error_is_final after failed) as (Hl' & He' & Hreq & Hroute);
    [exact Hl1 | discriminate |].
  split; [by rewrite Hcalled|]. fold st' in Hl', He', Hreq, Hroute.
  assert (Hrender : ∃ m, edit_render st' = EditError m).
  { unfold edit_render. rewrite Hl'. destruct (edit_error st') as [m|]; [|done].
    by exists m. }
  split; [|split; [exact Hrender|]].
  - unfold form_shown. destruct Hrender as [m ->]. done.
  - split; [exact Hreq|]. split; [exact Hroute | reflexivity].
Qed.

Lemma failed_save_witness :
  form_shown
    (edit_run [Change "bio" "again"; SubmitClick; EditSettle (Resolved ∅)]
       (edit_handle (SubmitSettle (SaveThrows (Str "Bad Request")))
          (edit_run [Change "bio" "Hello"]
             (edit_handle SubmitClick
                (edit_fetch_settle (Resolved {[ "bio" := Str "Hi" ]})
                   (edit_mounted "/profile/edit")))))) = false.
Proof.
  apply (failed_save_ends_the_form
           (edit_fetch_settle (Resolved {[ "bio" := Str "Hi" ]})
              (edit_mounted "/profile/edit"))
           (Str "Bad Request") [Change "bio" "Hello"]
           [Change "bio" "again"; SubmitClick; EditSettle (Resolved ∅)]).
  reflexivity.
Defined.

End ProfileFacts.

(* ===================================================================== *)
(** ** Properties of the gender column *)
(* ===================================================================== *)

Module ProfileMigrationFacts.
Import Migration ProfileMigration.

#[local] Open Scope string_scope.

(** X12. The [gender] column admits the empty value and the values MALE,
    FEMALE, OTHER and PREFER_NOT_TO_SAY, each of which fits its maximum
    length of 20, and no other value. *)
Theorem gender_admits_four_values_or_blank (value : string) :
  admits gender value ↔
  value = EmptyString ∨ value = "MALE" ∨ value = "FEMALE" ∨ value = "OTHER" ∨
  value = "PREFER_NOT_TO_SAY".
Proof.
  unfold admits, validate. split.
  - destruct (decide (value = EmptyString)) as [->|Hne]; [by left|].
    destruct (bool_decide (value ∈ (choices gender).*1)) eqn:Hin; [|discriminate].
    intros _. right. apply bool_decide_eq_true in Hin. simpl in Hin.
    apply elem_of_cons in Hin as [-> | Hin]; [tauto|].
    apply elem_of_cons in Hin as [-> | Hin]; [tauto|].
    apply elem_of_cons in Hin as [-> | Hin]; [tauto|].
    apply elem_of_cons in Hin as [-> | Hin]; [tauto|].
    by apply elem_of_nil in Hin.
  - intros [-> | [-> | [-> | [-> | ->]]]]; reflexivity.
Qed.

End ProfileMigrationFacts.
